(** * scripts/update_data.py: a shallow embedding and its properties

    The script keeps a JSON file of monthly population figures for two
    Swedish municipalities up to date: it loads the file, finds the
    latest month every tracked region has a figure for, asks the SCB
    API for the months after it, merges what comes back and rewrites
    the file sorted.

    Conventions of the embedding.
    - A Python [str] is a [string]: a sequence of the code points
      U+0000..U+00FF, one per [ascii].  Equality and the order [<=] of
      [str] are those of [String.eqb] and [String.leb] (code point by
      code point).  On these code points the class [\d] of [re] is
      exactly [0-9], and [\s] is the twelve characters of [is_space].
      The response body, decoded as latin-1, is such a string by
      construction.
    - A Python [int] is a [Z].
    - A function that can raise returns a [result]; [except] is a
      match on it.
    - The file, the clock and the HTTP server are arguments of [main]. *)

From Stdlib Require Import ZArith List String Ascii Bool Lia.
From Stdlib Require Import Lists.ListSet Sorting.Sorted Sorting.Permutation.
Import ListNotations.

#[local] Open Scope string_scope.
#[local] Open Scope Z_scope.

(** ** Exceptions *)

Inductive exn : Type :=
| ValueError
| RuntimeError
| HTTPError (status_code : Z)
| RequestException.

Inductive result (A : Type) : Type :=
| Ok (a : A)
| Raise (e : exn).

Arguments Ok {A} a.
Arguments Raise {A} e.

Definition bind {A B : Type} (c : result A) (k : A -> result B) : result B :=
  match c with
  | Ok a => k a
  | Raise e => Raise e
  end.

Notation "x <- c ;; k" := (bind c (fun x => k))
  (at level 61, c at next level, right associativity).

(** [[f(x) for x in l]] for an [f] that can raise. *)
Fixpoint mapM {A B : Type} (f : A -> result B) (l : list A) : result (list B) :=
  match l with
  | [] => Ok []
  | x :: l' => y <- f x ;; ys <- mapM f l' ;; Ok (y :: ys)
  end.

(** ** Characters *)

Definition LF : ascii := "010"%char.
Definition QUOTE : ascii := "034"%char.

Definition code (c : ascii) : Z := Z.of_N (N_of_ascii c).

(** [\d] *)
Definition is_digit (c : ascii) : bool := (48 <=? code c) && (code c <=? 57).

(** [\s]: tab, LF, VT, FF, CR, FS, GS, RS, US, space, NEL, NBSP. *)
Definition is_space (c : ascii) : bool :=
  let n := code c in
  ((9 <=? n) && (n <=? 13)) || ((28 <=? n) && (n <=? 32)) || (n =? 133) || (n =? 160).

Definition digit_val (c : ascii) : Z := code c - 48.
Definition digit_char (d : Z) : ascii := ascii_of_N (Z.to_N (48 + d)).

(** ** [int] and [str] on decimal numerals *)

Fixpoint int_digits (s : string) (acc : Z) : Z :=
  match s with
  | EmptyString => acc
  | String c s' => int_digits s' (10 * acc + digit_val c)
  end.

Fixpoint all_digits (s : string) : bool :=
  match s with
  | EmptyString => true
  | String c s' => is_digit c && all_digits s'
  end.

Definition is_numeral (s : string) : bool :=
  match s with
  | EmptyString => false
  | _ => all_digits s
  end.

(** [int(s)].  The script applies it to matches of [\d{4}], [\d{2}]
    and [-?\d+] only; on other spellings Python accepts (blanks, a
    [+], underscores) this model raises.  The interpreter's optional
    limit on the length of a numeral is not modelled. *)
Definition int (s : string) : result Z :=
  match s with
  | String "-" t => if is_numeral t then Ok (- int_digits t 0) else Raise ValueError
  | _ => if is_numeral s then Ok (int_digits s 0) else Raise ValueError
  end.

(** The digits of [n >= 0], most significant first, pushed in front
    of [acc]. *)
Fixpoint str_digits (fuel : nat) (n : Z) (acc : string) : string :=
  match fuel with
  | O => acc
  | S f =>
      let acc' := String (digit_char (n mod 10)) acc in
      if n / 10 =? 0 then acc' else str_digits f (n / 10) acc'
  end.

Definition str_nat (n : Z) (acc : string) : string :=
  str_digits (S (Z.to_nat n)) n acc.

(** [str(n)] and [f"{n}"]. *)
Definition str (n : Z) : string :=
  if n <? 0 then String "-" (str_nat (- n) "") else str_nat n "".

Fixpoint zeros (k : nat) (s : string) : string :=
  match k with
  | O => s
  | S k' => String "0" (zeros k' s)
  end.

(** [f"{n:02d}"]: the sign, then the digits zero-filled so that the
    whole is at least two characters wide. *)
Definition format_02d (n : Z) : string :=
  if n <? 0 then
    let ds := str_nat (- n) "" in String "-" (zeros (1 - length ds) ds)
  else
    let ds := str_nat n "" in zeros (2 - length ds) ds.

(** ** [datetime.date] *)

Module dt.

Record date : Type := mk { year : Z; month : Z; day : Z }.

Definition MINYEAR : Z := 1.
Definition MAXYEAR : Z := 9999.

Definition is_leap (y : Z) : bool :=
  (y mod 4 =? 0) && (negb (y mod 100 =? 0) || (y mod 400 =? 0)).

Definition days_in_month (y m : Z) : Z :=
  if m =? 2 then (if is_leap y then 29 else 28)
  else if (m =? 4) || (m =? 6) || (m =? 9) || (m =? 11) then 30
  else 31.

(** [dt.date(y, m, d)] *)
Definition new (y m d : Z) : result date :=
  if (MINYEAR <=? y) && (y <=? MAXYEAR) && (1 <=? m) && (m <=? 12)
     && (1 <=? d) && (d <=? days_in_month y m)
  then Ok (mk y m d)
  else Raise ValueError.

(** [dt.date.min] *)
Definition min : date := mk 1 1 1.

Definition eqb (a b : date) : bool :=
  (year a =? year b) && (month a =? month b) && (day a =? day b).

(** [a < b] *)
Definition ltb (a b : date) : bool :=
  (year a <? year b)
  || ((year a =? year b)
      && ((month a <? month b)
          || ((month a =? month b) && (day a <? day b)))).

(** [a <= b] *)
Definition leb (a b : date) : bool := ltb a b || eqb a b.

(** A value [dt.date] can hold. *)
Definition valid (d : date) : Prop :=
  MINYEAR <= year d <= MAXYEAR /\ 1 <= month d <= 12
  /\ 1 <= day d <= days_in_month (year d) (month d).

End dt.

(** ** The fragment of [re] the script uses

    Patterns are sequences of literal text, greedy repetitions of a
    character class, groups that do not nest, [^] and [$].  The
    matcher is the backtracking one of [re]: a repetition first takes
    as many characters as it can and gives them back one at a time
    when the rest of the pattern fails; [search] returns the match at
    the leftmost position that has one. *)

Module re.

Inductive regex : Type :=
| Lit (text : string)
| Rep (cls : ascii -> bool) (lo : nat) (hi : option nat)
| Group (r : regex)
| Seq (r1 r2 : regex)
| Bol
| Eol.

Record Match : Type := mkMatch { m_start : nat; m_end : nat; group0 : string; groups : list string }.

(** [m.group(i)] for [i >= 1]. *)
Definition group (m : Match) (i : nat) : string := nth (i - 1) (groups m) "".

Fixpoint strip (p s : string) : option string :=
  match p with
  | EmptyString => Some s
  | String a p' =>
      match s with
      | String b s' => if Ascii.eqb a b then strip p' s' else None
      | EmptyString => None
      end
  end.

Definition room (hi : option nat) : bool :=
  match hi with
  | Some O => false
  | _ => true
  end.

(** [cls{lo,hi}] at [s], [n] characters into the subject; [k] is
    the rest of the pattern. *)
Fixpoint rep {A : Type} (cls : ascii -> bool) (lo : nat) (hi : option nat)
    (s : string) (n : nat) (k : string -> nat -> option A) : option A :=
  let stop := match lo with O => k s n | S _ => None end in
  match s with
  | String c s' =>
      if cls c && room hi then
        match rep cls (Nat.pred lo) (option_map Nat.pred hi) s' (S n) k with
        | Some x => Some x
        | None => stop
        end
      else stop
  | EmptyString => stop
  end.

Fixpoint run {A : Type} (r : regex) (s : string) (n : nat) (g : list string)
    (k : string -> nat -> list string -> option A) : option A :=
  match r with
  | Lit text =>
      match strip text s with
      | Some s' => k s' (n + length text)%nat g
      | None => None
      end
  | Rep cls lo hi => rep cls lo hi s n (fun s' n' => k s' n' g)
  | Group r1 =>
      run r1 s n g (fun s' n' g' => k s' n' (g' ++ [substring 0 (n' - n) s])%list)
  | Seq r1 r2 => run r1 s n g (fun s' n' g' => run r2 s' n' g' k)
  | Bol => if (n =? 0)%nat then k s n g else None
  | Eol =>
      match s with
      | EmptyString => k s n g
      | String c EmptyString => if Ascii.eqb c LF then k s n g else None
      | _ => None
      end
  end.

(** A match of [r] that starts at [s], [n] characters into the
    subject. *)
Definition match_at (r : regex) (s : string) (n : nat) : option Match :=
  run r s n [] (fun _ n' g => Some (mkMatch n n' (substring 0 (n' - n) s) g)).

(** [r.match(s)] *)
Definition match_ (r : regex) (s : string) : option Match := match_at r s 0.

Fixpoint search_from (r : regex) (s : string) (n : nat) : option Match :=
  match match_at r s n with
  | Some m => Some m
  | None =>
      match s with
      | String _ s' => search_from r s' (S n)
      | EmptyString => None
      end
  end.

(** [re.search(r, s)] *)
Definition search (r : regex) (s : string) : option Match := search_from r s 0.

(** The matches from [s] on, once [skip] more characters (the rest
    of the match just found) have been passed over. *)
Fixpoint findall_from (r : regex) (s : string) (n skip : nat) : list string :=
  match s with
  | EmptyString => []
  | String _ s' =>
      match skip with
      | S j => findall_from r s' (S n) j
      | O =>
          match match_at r s n with
          | Some m => group0 m :: findall_from r s' (S n) (length (group0 m) - 1)
          | None => findall_from r s' (S n) 0
          end
      end
  end.

(** [re.findall(r, s)] for a pattern without groups that matches no
    empty string. *)
Definition findall (r : regex) (s : string) : list string := findall_from r s 0 0.

End re.

(** [s.split(sep)] for a separator of one character or more: [cur] is
    the piece being read, [skip] what is left of a separator just
    found. *)
Fixpoint split_from (sep s cur : string) (skip : nat) : list string :=
  match s with
  | EmptyString => [cur]
  | String c s' =>
      match skip with
      | S j => split_from sep s' cur j
      | O =>
          if prefix sep s then cur :: split_from sep s' "" (length sep - 1)
          else split_from sep s' (cur ++ String c "") 0
      end
  end.

Definition split (sep s : string) : list string := split_from sep s "" 0.

(** ** Configuration *)

Definition Norrkoping : string := "Norrk" ++ String "246" "ping".
Definition Jonkoping : string := String "J" (String "246" "nk") ++ String "246" "ping".

Definition REGION_CODES : list string := ["0581"; "0680"].
Definition REGION_NAMES : list (string * string) :=
  [("0581", Norrkoping); ("0680", Jonkoping)].

(** [REGION_NAMES.get(rc, rc)] *)
Definition region_name (rc : string) : string :=
  match find (fun kv => String.eqb (fst kv) rc) REGION_NAMES with
  | Some kv => snd kv
  | None => rc
  end.

(** ** Period arithmetic *)

(** [^(\d{4})M(\d{2})$] *)
Definition MONTH_RE : re.regex :=
  re.Seq re.Bol
    (re.Seq (re.Group (re.Rep is_digit 4 (Some 4%nat)))
       (re.Seq (re.Lit "M")
          (re.Seq (re.Group (re.Rep is_digit 2 (Some 2%nat))) re.Eol))).

Definition parse_month (s : string) : result dt.date :=
  match re.match_ MONTH_RE s with
  | None => Raise ValueError
  | Some m =>
      y <- int (re.group m 1) ;;
      mm <- int (re.group m 2) ;;
      dt.new y mm 1
  end.

Definition month_to_str (d : dt.date) : string :=
  str (dt.year d) ++ "M" ++ format_02d (dt.month d).

(** [//] and [%] of Python round towards minus infinity, as [Z.div]
    and [Z.modulo] do for the divisor 12. *)
Definition add_months (d : dt.date) (n : Z) : result dt.date :=
  let y := dt.year d + (dt.month d - 1 + n) / 12 in
  let m := (dt.month d - 1 + n) mod 12 + 1 in
  dt.new y m 1.

(** ** Observations and the dataset *)

(** One object of the JSON list. *)
Record row : Type := mkRow { region : string; month : string; population : Z }.

(** The identity [(r["region"], r["month"])] of an observation. *)
Definition key : Type := (string * string)%type.

Definition key_of (r : row) : key := (region r, month r).

Definition key_dec (a b : key) : {a = b} + {a <> b}.
Proof. decide equality; apply string_dec. Defined.

(** A [set] of Python is a list without repetition; [s.add(x)] is
    [set_add], [x in s] is [set_mem]. *)
Definition set_of {A : Type} (dec : forall a b : A, {a = b} + {a <> b}) (l : list A) : set A :=
  fold_left (fun s x => set_add dec x s) l (empty_set A).

(** [a == b] on sets of strings. *)
Definition set_eqb (a b : set string) : bool :=
  forallb (fun x => set_mem string_dec x b) a
  && forallb (fun x => set_mem string_dec x a) b.

(** [regions_by_month[m].add(r)] on a [defaultdict(set)], the items
    kept in the order their keys were first seen. *)
Fixpoint dict_add (m r : string) (d : list (string * set string)) : list (string * set string) :=
  match d with
  | [] => [(m, set_add string_dec r (empty_set string))]
  | (m', s) :: d' =>
      if String.eqb m' m then (m', set_add string_dec r s) :: d'
      else (m', s) :: dict_add m r d'
  end.

Definition regions_by_month (rows : list row) : list (string * set string) :=
  fold_left (fun d r => dict_add (month r) (region r) d) rows [].

(** One turn of the loop over [regions_by_month.items()]. *)
Definition latest_step (all_region_names : set string) (latest_complete : option dt.date)
    (item : string * set string) : option dt.date :=
  let (month_str, region_set) := item in
  if set_eqb region_set all_region_names then
    match parse_month month_str with
    | Ok d =>
        match latest_complete with
        | None => Some d
        | Some l => if dt.ltb l d then Some d else latest_complete
        end
    | Raise _ => latest_complete
    end
  else latest_complete.

Definition find_latest_complete_month (rows : list row) (all_region_names : set string)
    : option dt.date :=
  fold_left (latest_step all_region_names) (regions_by_month rows) None.

(** The file at [DATA_FILE]: [None] when it is missing or empty,
    else the list it holds. *)
Definition file : Type := option (list row).

Definition read_existing (f : file) : list row * set key * option dt.date :=
  match f with
  | None => ([], empty_set key, None)
  | Some rows =>
      let all_region_names := set_of string_dec (map snd REGION_NAMES) in
      let latest := find_latest_complete_month rows all_region_names in
      let rows :=
        match latest with
        | Some l =>
            let latest_str := month_to_str l in
            filter (fun r => String.leb (month r) latest_str) rows
        | None => rows
        end in
      (rows, set_of key_dec (map key_of rows), latest)
  end.

(** ** The months to ask for *)

(** The [while cur <= end_inclusive] loop; [None] when [fuel] turns
    do not finish it. *)
Fixpoint months_loop (fuel : nat) (cur end_inclusive : dt.date) (out : list string)
    : option (result (list string)) :=
  if dt.leb cur end_inclusive then
    match fuel with
    | O => None
    | S fuel' =>
        match add_months cur 1 with
        | Ok cur' => months_loop fuel' cur' end_inclusive (out ++ [month_to_str cur])%list
        | Raise e => Some (Raise e)
        end
    end
  else Some (Ok out).

(** The months of a date, counted from year 0. *)
Definition ordinal (d : dt.date) : Z := 12 * dt.year d + (dt.month d - 1).

(** The loop adds a month each turn, so the months between [cur] and
    [end_inclusive] bound its turns ([months_loop_finishes]). *)
Definition months_between (start_exclusive : option dt.date) (end_inclusive : dt.date)
    : result (list string) :=
  cur <- match start_exclusive with
         | Some d => add_months d 1
         | None => Ok end_inclusive
         end ;;
  match months_loop (Z.to_nat (ordinal end_inclusive - ordinal cur + 1)) cur end_inclusive [] with
  | Some r => r
  | None => Ok []
  end.

(** ** The request and the text table *)

(** What [requests.get] does: a response with a status code and a
    body, or no response at all (time-out, connection error). *)
Inductive http : Type :=
| Response (status_code : Z) (content : string)
| NoResponse.

(** The pattern [CODES\(Qregion Q\)=Q([^Q]+)Q;], written here with Q
    for the double quote (no blank after [region]). *)
Definition CODES_RE : re.regex :=
  re.Seq (re.Lit ("CODES(" ++ String QUOTE "region" ++ String QUOTE ")=" ++ String QUOTE ""))
    (re.Seq (re.Group (re.Rep (fun c => negb (Ascii.eqb c QUOTE)) 1 None))
       (re.Lit (String QUOTE ";"))).

(** [DATA=\s*([^;]+);] *)
Definition DATA_RE : re.regex :=
  re.Seq (re.Lit "DATA=")
    (re.Seq (re.Rep is_space 0 None)
       (re.Seq (re.Group (re.Rep (fun c => negb (Ascii.eqb c ";")) 1 None))
          (re.Lit ";"))).

(** [-?\d+] *)
Definition INT_RE : re.regex :=
  re.Seq (re.Rep (Ascii.eqb "-") 0 (Some 1%nat)) (re.Rep is_digit 1 None).

(** The loop over [months] for one region code: [break] leaves it as
    soon as [idx] has passed the last number. *)
Fixpoint rows_of_region (rc : string) (months : list string) (numbers : list Z)
    (rows : list row) (idx : nat) : list row * nat :=
  match months with
  | [] => (rows, idx)
  | mo :: months' =>
      match nth_error numbers idx with
      | None => (rows, idx)
      | Some val =>
          rows_of_region rc months' numbers
            (rows ++ [mkRow (region_name rc) mo val])%list (S idx)
      end
  end.

(** The two nested loops that lay the numbers out as rows. *)
Definition build_rows (reg_codes months : list string) (numbers : list Z) : list row :=
  fst (fold_left (fun st rc => rows_of_region rc months numbers (fst st) (snd st))
         reg_codes ([], O)).

(** The region codes the response is read with. *)
Definition response_codes (text : string) : list string :=
  match re.search CODES_RE text with
  | None => REGION_CODES
  | Some m_codes => split (String QUOTE "," ++ String QUOTE "") (re.group m_codes 1)
  end.

(** [fetch_scb] from the decoded text on. *)
Definition parse_table (text : string) (months : list string) : result (list row) :=
  let reg_codes := response_codes text in
  match re.search DATA_RE text with
  | None => Raise RuntimeError
  | Some m_data =>
      numbers <- mapM int (re.findall INT_RE (re.group m_data 1)) ;;
      Ok (build_rows reg_codes months numbers)
  end.

(** [fetch_scb(months)], the server being [api]: the request for
    [months] gets [api months].  [raise_for_status] raises on the
    statuses 400 to 599; decoding the body as latin-1 keeps every byte
    as the code point of the same number. *)
Definition fetch_scb (api : list string -> http) (months : list string) : result (list row) :=
  match months with
  | [] => Ok []
  | _ =>
      match api months with
      | NoResponse => Raise RequestException
      | Response status_code content =>
          if (400 <=? status_code) && (status_code <? 600) then
            if status_code =? 400 then Ok [] else Raise (HTTPError status_code)
          else parse_table content months
      end
  end.

(** ** Merge and persist *)

(** One turn of the loop over [new_rows]. *)
Definition merge_step (st : list row * set key * Z) (r : row) : list row * set key * Z :=
  let '(rows, seen, added) := st in
  if set_mem key_dec (key_of r) seen then st
  else ((rows ++ [r])%list, set_add key_dec (key_of r) seen, added + 1).

Definition merge (rows : list row) (seen : set key) (new_rows : list row)
    : list row * set key * Z :=
  fold_left merge_step new_rows (rows, seen, 0).

Definition sort_key (r : row) : result (dt.date * string) :=
  d <- match re.match_ MONTH_RE (month r) with
       | Some _ => parse_month (month r)
       | None => Ok dt.min
       end ;;
  Ok (d, region r).

(** [a < b] on the tuples [sort_key] returns: the first components
    decide unless they are equal. *)
Definition sort_key_ltb (a b : dt.date * string) : bool :=
  if dt.eqb (fst a) (fst b) then String.ltb (snd a) (snd b)
  else dt.ltb (fst a) (fst b).

(** [list.sort(key=...)] computes every key first and then sorts
    stably; a stable sort has one result, here reached by insertion. *)
Fixpoint insert_keyed (x : (dt.date * string) * row) (l : list ((dt.date * string) * row))
    : list ((dt.date * string) * row) :=
  match l with
  | [] => [x]
  | y :: l' => if sort_key_ltb (fst x) (fst y) then x :: l else y :: insert_keyed x l'
  end.

Definition sort_keyed (l : list ((dt.date * string) * row)) : list ((dt.date * string) * row) :=
  fold_left (fun sorted x => insert_keyed x sorted) l [].

Definition sort_rows (rows : list row) : result (list row) :=
  keys <- mapM sort_key rows ;;
  Ok (map snd (sort_keyed (combine keys rows))).

(** The end of [main], from the loop over [new_rows] on: what
    [main] returns and, when it writes [DATA_FILE], the list it
    writes. *)
Definition merge_and_persist (rows : list row) (seen : set key) (new_rows : list row)
    : result (Z * option (list row)) :=
  let '(rows, seen, added) := merge rows seen new_rows in
  if added =? 0 then Ok (0, None)
  else
    sorted <- sort_rows rows ;;
    Ok (0, Some sorted).

(** [main()].  Writing is the last thing it does, so a run that
    raises has written nothing. *)
Definition main (f : file) (today : dt.date) (api : list string -> http)
    : result (Z * option (list row)) :=
  let '(rows, seen, latest) := read_existing f in
  first_of_this <- dt.new (dt.year today) (dt.month today) 1 ;;
  end_ <- add_months first_of_this (-1) ;;
  match latest with
  | None => Ok (0, None)
  | Some latest =>
      if dt.leb end_ latest then Ok (0, None)
      else
        months <- months_between (Some latest) end_ ;;
        new_rows <- fetch_scb api months ;;
        merge_and_persist rows seen new_rows
  end.

(** The file after a run. *)
Definition run (f : file) (today : dt.date) (api : list string -> http) : file :=
  match main f today api with
  | Ok (_, Some rows) => Some rows
  | _ => f
  end.

(** The file after a sequence of runs, each with its day and server. *)
Definition runs (f : file) (days : list (dt.date * (list string -> http))) : file :=
  fold_left (fun f d => run f (fst d) (snd d)) days f.

(** ** Vocabulary of the statements *)

(** The year and the month a seven-character token spells. *)
Definition year_digits (s : string) : Z := int_digits (substring 0 4 s) 0.
Definition month_digits (s : string) : Z := int_digits (substring 5 2 s) 0.

(** The fixed pattern: four digits, the letter M, two digits that
    spell a month from 01 to 12. *)
Definition fixed_pattern (s : string) : bool :=
  (length s =? 7)%nat
  && all_digits (substring 0 4 s)
  && String.eqb (substring 4 1 s) "M"
  && all_digits (substring 5 2 s)
  && (1 <=? month_digits s) && (month_digits s <=? 12).

(** A token of the fixed pattern whose year is not 0000. *)
Definition is_month_token (s : string) : bool :=
  fixed_pattern s && (1 <=? year_digits s).

(** Where [$] matches: at the end, or before a final line feed. *)
Definition at_end (rest : string) : bool :=
  match rest with
  | EmptyString => true
  | String c EmptyString => Ascii.eqb c LF
  | _ => false
  end.

(** The two groups of a match of [MONTH_RE]. *)
Definition month_parts (s : string) : option (string * string) :=
  match s with
  | String a (String b (String c (String d (String sep (String e (String f rest)))))) =>
      if is_digit a && is_digit b && is_digit c && is_digit d && Ascii.eqb "M" sep
         && is_digit e && is_digit f && at_end rest
      then Some (String a (String b (String c (String d ""))), String e (String f ""))
      else None
  | _ => None
  end.

(** The pairs (region code, month) in the order the table lists
    their values: regions outside, months inside. *)
Definition layout (reg_codes months : list string) : list (string * string) :=
  flat_map (fun rc => map (pair rc) months) reg_codes.

(** The observation of a pair and its value. *)
Definition row_of (x : string * string * Z) : row :=
  mkRow (region_name (fst (fst x))) (snd (fst x)) (snd x).

(** The text of the [DATA=] block, when the response has one. *)
Definition data_block (text : string) : option string :=
  option_map (fun m => re.group m 1) (re.search DATA_RE text).

(** Every character of [s] is in the class [cls]. *)
Fixpoint all_chars (cls : ascii -> bool) (s : string) : bool :=
  match s with
  | EmptyString => true
  | String c s' => cls c && all_chars cls s'
  end.

(** A [CODES("region")=...;] line listing [codes], each between
    double quotes, and a [DATA=] block holding [data]. *)
Definition quoted (s : string) : string := String QUOTE s ++ String QUOTE "".

Definition table_text (codes : list string) (data : string) : string :=
  "CODES(" ++ quoted "region" ++ ")=" ++ concat "," (map quoted codes) ++ ";"
  ++ String LF "DATA=" ++ String LF data ++ ";".

(** The order of the persisted list: by decoded month, and by
    region name between observations of one decoded month. *)
Definition month_region_le (a b : dt.date * string) : Prop :=
  dt.ltb (fst a) (fst b) = true
  \/ (fst a = fst b /\ String.leb (snd a) (snd b) = true).

(** [rows] is sorted: every row has a key, and the keys ascend. *)
Definition sorted_rows (rows : list row) : Prop :=
  exists keys, mapM sort_key rows = Ok keys /\ StronglySorted month_region_le keys.

(** No two rows share their (region, month) pair. *)
Definition distinct_keys (rows : list row) : Prop := NoDup (map key_of rows).

(** The invariant of the persisted file. *)
Definition dataset_ok (f : file) : Prop :=
  match f with
  | None => True
  | Some rows => sorted_rows rows /\ distinct_keys rows
  end.

(** A small file, a day and a server for the examples: both regions
    have January 2025, the day is in March, and the server answers the
    request for February with one value per region. *)
Definition file_2025M01 : file :=
  Some [mkRow Jonkoping "2025M01" 145000; mkRow Norrkoping "2025M01" 144000].

Definition day_2025_03_15 : dt.date := dt.mk 2025 3 15.

Definition api_two_values (months : list string) : http :=
  Response 200 (table_text REGION_CODES "144100 145100").

(** The month token [tok] is complete: some row has it, and the
    regions of the rows that have it are exactly [all_region_names]. *)
Definition complete_month (rows : list row) (all_region_names : set string) (tok : string)
    : Prop :=
  In tok (map month rows)
  /\ forall x, set_In x all_region_names
               <-> exists r, In r rows /\ month r = tok /\ region r = x.

(** [latest] is the greatest date a complete month token parses to,
    or [None] when no complete token parses. *)
Definition latest_complete (rows : list row) (all_region_names : set string)
    (latest : option dt.date) : Prop :=
  match latest with
  | Some d =>
      (exists tok, complete_month rows all_region_names tok /\ parse_month tok = Ok d)
      /\ forall tok d', complete_month rows all_region_names tok ->
                        parse_month tok = Ok d' -> dt.leb d' d = true
  | None =>
      forall tok d', complete_month rows all_region_names tok -> parse_month tok <> Ok d'
  end.

(** The month token of [r] parses. *)
Definition parses (r : row) : bool :=
  match parse_month (month r) with
  | Ok _ => true
  | Raise _ => false
  end.

(** What the dictionary holds once [rows] have been read into it. *)
Definition groups_of (rows : list row) (d : list (string * set string)) : Prop :=
  NoDup (map fst d)
  /\ (forall tok, In tok (map fst d) <-> In tok (map month rows))
  /\ (forall tok s x, In (tok, s) d ->
        (set_In x s <-> exists r, In r rows /\ month r = tok /\ region r = x)).

(** An item of the dictionary that counts: its regions are all the
    tracked ones and its month parses to [d]. *)
Definition counts (all_region_names : set string) (item : string * set string)
    (d : dt.date) : Prop :=
  set_eqb (snd item) all_region_names = true /\ parse_month (fst item) = Ok d.

(** The tracked regions, as [read_existing] collects them. *)
Definition tracked_regions : set string := set_of string_dec (map snd REGION_NAMES).

(** The rows, the index and the latest complete month of a load. *)
Definition loaded_rows (f : file) : list row := fst (fst (read_existing f)).
Definition loaded_seen (f : file) : set key := snd (fst (read_existing f)).
Definition loaded_latest (f : file) : option dt.date := snd (read_existing f).


(** The token spelt by six decimal digits. *)
Definition token_of_digits (a b c d e f : Z) : string :=
  String (digit_char a) (String (digit_char b) (String (digit_char c) (String (digit_char d)
    (String "M" (String (digit_char e) (String (digit_char f) "")))))).

(** A first-of-month date whose year has four digits. *)
Definition four_digit_year (d : dt.date) : Prop :=
  1000 <= dt.year d <= 9999 /\ 1 <= dt.month d <= 12 /\ dt.day d = 1.

(** The order of the rows paired with their keys. *)
Definition keyed_le (p q : (dt.date * string) * row) : Prop :=
  month_region_le (fst p) (fst q).

(** The key of [p] is [k]: neither is less than the other. *)
Definition same_key (k : dt.date * string) (p : (dt.date * string) * row) : bool :=
  negb (sort_key_ltb k (fst p)) && negb (sort_key_ltb (fst p) k).

(** The first day of the month that is [o] months after the start
    of year 0: the inverse of [ordinal] on first-of-month dates. *)
Definition month_of_ordinal (o : Z) : dt.date := dt.mk (o / 12) (o mod 12 + 1) 1.

(** The tokens of the months after [latest] up to the month before
    the one [today] is in, in ascending order. *)
Definition months_to_fetch (latest today : dt.date) : list string :=
  map (fun k => month_to_str (month_of_ordinal (ordinal latest + 1 + Z.of_nat k)))
    (seq 0 (Z.to_nat (ordinal today - 1 - ordinal latest))).

(** * Properties *)

(** ** Dates *)

Lemma dt_new_ok (y m d : Z) (r : dt.date) :
  dt.new y m d = Ok r ->
  r = dt.mk y m d /\ 1 <= y <= 9999 /\ 1 <= m <= 12 /\ 1 <= d <= dt.days_in_month y m.
Proof.
  unfold dt.new, dt.MINYEAR, dt.MAXYEAR.
  destruct (_ && _) eqn:E; [|discriminate].
  intros [= <-]. repeat (apply andb_prop in E; destruct E as [E ?]).
  split; [reflexivity|lia].
Qed.

Lemma dt_new_first (y m : Z) :
  1 <= y <= 9999 -> 1 <= m <= 12 -> dt.new y m 1 = Ok (dt.mk y m 1).
Proof.
  intros Hy Hm. unfold dt.new, dt.MINYEAR, dt.MAXYEAR.
  assert (Hd : 1 <= dt.days_in_month y m).
  { unfold dt.days_in_month.
    destruct (m =? 2); [destruct (dt.is_leap y)|destruct (_ || _)]; lia. }
  replace (1 <=? y) with true by lia. replace (y <=? 9999) with true by lia.
  replace (1 <=? m) with true by lia. replace (m <=? 12) with true by lia.
  replace (1 <=? dt.days_in_month y m) with true by lia. reflexivity.
Qed.

Lemma dt_new_raises (y m d : Z) (e : exn) : dt.new y m d = Raise e -> e = ValueError.
Proof. unfold dt.new. destruct (_ && _); congruence. Qed.

Lemma add_months_ok (d : dt.date) (n : Z) (d' : dt.date) :
  add_months d n = Ok d' ->
  dt.day d' = 1 /\ 1 <= dt.month d' <= 12 /\ 1 <= dt.year d' <= 9999
  /\ ordinal d' = ordinal d + n.
Proof.
  unfold add_months. intros H. apply dt_new_ok in H. destruct H as (-> & Hy & Hm & _).
  unfold ordinal. cbn [dt.year dt.month dt.day].
  repeat split; try lia.
  pose proof (Z.div_mod (dt.month d - 1 + n) 12 ltac:(lia)). lia.
Qed.

(** C9: for a calendar month [d] (a valid date on the first of its
    month) and an integer [n] such that [add_months d n] is a date
    the type can hold, [add_months (add_months d n) (-n)] is [d]; the
    intermediate date is on the first of its month, has a month in
    1..12 and lies exactly [n] months from [d], years rolled over. *)
Theorem add_months_inverse (d : dt.date) (n : Z) (d' : dt.date) :
  dt.valid d -> dt.day d = 1 ->
  add_months d n = Ok d' ->
  add_months d' (- n) = Ok d
  /\ dt.day d' = 1 /\ 1 <= dt.month d' <= 12
  /\ 12 * dt.year d' + dt.month d' = 12 * dt.year d + dt.month d + n.
Proof.
  intros (Hy & Hm & _) Hday H.
  pose proof (add_months_ok _ _ _ H) as (Hd' & Hm' & Hy' & Hord).
  unfold ordinal in Hord.
  repeat split; try lia.
  unfold add_months.
  assert (Hq : (dt.month d' - 1 + - n) / 12 = dt.year d - dt.year d').
  { symmetry. apply Z.div_unique with (r := dt.month d - 1); lia. }
  assert (Hr : (dt.month d' - 1 + - n) mod 12 = dt.month d - 1).
  { symmetry. apply Z.mod_unique with (q := dt.year d - dt.year d'); lia. }
  rewrite Hq, Hr.
  replace (dt.year d' + (dt.year d - dt.year d')) with (dt.year d) by lia.
  replace (dt.month d - 1 + 1) with (dt.month d) by lia.
  unfold dt.MINYEAR, dt.MAXYEAR in Hy.
  rewrite dt_new_first by lia.
  destruct d as [y m dd]; cbn in *; subst; reflexivity.
Qed.

Lemma add_months_inverse_witness :
  add_months (dt.mk 2025 1 1) (-14) = Ok (dt.mk 2023 11 1)
  /\ add_months (dt.mk 2023 11 1) (- -14) = Ok (dt.mk 2025 1 1).
Proof.
  split; [reflexivity|].
  apply (add_months_inverse (dt.mk 2025 1 1) (-14) (dt.mk 2023 11 1)).
  - repeat split; vm_compute; discriminate.
  - reflexivity.
  - reflexivity.
Defined.

(** [add_months] returns a date exactly when the year it reaches is
    one [dt.date] has. *)
Lemma add_months_in_range (d : dt.date) (n : Z) :
  1 <= dt.year d + (dt.month d - 1 + n) / 12 <= 9999 <->
  exists d', add_months d n = Ok d'.
Proof.
  unfold add_months. split.
  - intros H. eexists. apply dt_new_first; [exact H|].
    pose proof (Z.mod_pos_bound (dt.month d - 1 + n) 12 ltac:(lia)). lia.
  - intros [d' H]. apply dt_new_ok in H. lia.
Qed.

(** ** Month tokens *)

Lemma MONTH_RE_match (s : string) :
  re.match_ MONTH_RE s =
  match month_parts s with
  | Some (y, mm) => Some (re.mkMatch 0 7 (y ++ "M" ++ mm) [y; mm])
  | None => None
  end.
Proof.
  unfold re.match_, re.match_at, MONTH_RE.
  destruct s as [|a [|b [|c [|d [|sep [|e [|f rest]]]]]]];
    cbn -[Ascii.eqb is_digit]; try reflexivity.
  all: repeat (first
         [ match goal with
           | |- context [is_digit ?x] => destruct (is_digit x) eqn:?
           end
         | match goal with
           | |- context [Ascii.eqb ?x ?y] => destruct (Ascii.eqb x y) eqn:?
           end
         | match goal with
           | |- context [match ?r with EmptyString => _ | String _ _ => _ end] =>
               is_var r; destruct r
           end
         | match goal with
           | |- context [re.rep _ _ _ ?r _ _] => is_var r; destruct r
           end ];
         cbn -[Ascii.eqb is_digit]); try reflexivity.
  all: repeat match goal with
         | H : (_ =? _)%char = true |- _ => apply Ascii.eqb_eq in H; subst
         end; try reflexivity; try discriminate.
Qed.

Lemma int_numeral (s : string) : is_numeral s = true -> int s = Ok (int_digits s 0).
Proof.
  intros H. destruct s as [|c t]; [discriminate|].
  assert (Hc : is_digit c = true) by (cbn in H; apply andb_prop in H; tauto).
  assert (Hm : c <> "-"%char) by (intros ->; discriminate).
  unfold int.
  destruct c as [[] [] [] [] [] [] [] []]; try congruence; now rewrite H.
Qed.

Lemma is_digit_val (c : ascii) : is_digit c = true -> 0 <= digit_val c <= 9.
Proof. unfold is_digit, digit_val. lia. Qed.


Lemma parse_month_eq (s : string) :
  parse_month s =
  match month_parts s with
  | Some (y, mm) => dt.new (int_digits y 0) (int_digits mm 0) 1
  | None => Raise ValueError
  end.
Proof.
  unfold parse_month. rewrite MONTH_RE_match.
  destruct (month_parts s) as [[y mm]|] eqn:E; [|reflexivity].
  unfold month_parts in E.
  destruct s as [|a [|b [|c [|d [|sep [|e [|f rest]]]]]]]; try discriminate.
  destruct (_ && _) eqn:D in E; [|discriminate].
  injection E as <- <-.
  apply andb_prop in D as [D Hend]. apply andb_prop in D as [D Hf].
  apply andb_prop in D as [D He]. apply andb_prop in D as [D Hsep].
  apply andb_prop in D as [D Hd]. apply andb_prop in D as [D Hc].
  apply andb_prop in D as [Ha Hb].
  cbn [re.group re.groups Nat.sub nth].
  rewrite !int_numeral; [reflexivity| |]; cbn [is_numeral all_digits].
  - now rewrite He, Hf.
  - now rewrite Ha, Hb, Hc, Hd.
Qed.

Lemma dt_new_ValueError (y m : Z) :
  ~ (1 <= y <= 9999 /\ 1 <= m <= 12) -> dt.new y m 1 = Raise ValueError.
Proof.
  intros H. destruct (dt.new y m 1) as [r|e] eqn:E.
  - apply dt_new_ok in E. lia.
  - f_equal. eapply dt_new_raises, E.
Qed.

Lemma token_fields (a b c d sep e f : ascii) (rest : string) :
  let s := String a (String b (String c (String d (String sep (String e (String f rest)))))) in
  year_digits s = int_digits (String a (String b (String c (String d ""))) ) 0
  /\ month_digits s = int_digits (String e (String f "")) 0
  /\ (rest = "" ->
      fixed_pattern s =
      is_digit a && is_digit b && is_digit c && is_digit d && Ascii.eqb "M" sep
      && is_digit e && is_digit f
      && (1 <=? month_digits s) && (month_digits s <=? 12)).
Proof.
  cbn zeta. split; [reflexivity|]. split; [destruct rest; reflexivity|]. intros ->.
  unfold fixed_pattern.
  cbn [length Nat.eqb substring all_digits andb String.eqb].
  rewrite (Ascii.eqb_sym sep "M").
  destruct (is_digit a), (is_digit b), (is_digit c), (is_digit d),
    (Ascii.eqb "M" sep), (is_digit e), (is_digit f); reflexivity.
Qed.

Lemma parse_month_token (a b c d sep e f : ascii) (rest : string) :
  parse_month (String a (String b (String c (String d (String sep (String e (String f rest))))))) =
  if is_digit a && is_digit b && is_digit c && is_digit d && Ascii.eqb "M" sep
     && is_digit e && is_digit f && at_end rest
  then dt.new (int_digits (String a (String b (String c (String d "")))) 0)
         (int_digits (String e (String f "")) 0) 1
  else Raise ValueError.
Proof.
  rewrite parse_month_eq. unfold month_parts. destruct (_ && _); reflexivity.
Qed.

Lemma year_digits_bound (a b c d : ascii) :
  is_digit a = true -> is_digit b = true -> is_digit c = true -> is_digit d = true ->
  0 <= int_digits (String a (String b (String c (String d "")))) 0 <= 9999.
Proof.
  intros Ha Hb Hc Hd.
  apply is_digit_val in Ha, Hb, Hc, Hd. cbn [int_digits]. lia.
Qed.

(** What [parse_month] does with a seven-character string. *)
Lemma parse_month_seven (t : string) (rest : string) :
  length t = 7%nat -> at_end rest = true ->
  parse_month (t ++ rest) =
  if is_month_token t then Ok (dt.mk (year_digits t) (month_digits t) 1)
  else Raise ValueError.
Proof.
  intros Hlen Hrest.
  destruct t as [|a [|b [|c [|d [|sep [|e [|f [|x t]]]]]]]]; try discriminate.
  cbn [append]. rewrite parse_month_token, Hrest.
  unfold is_month_token.
  destruct (token_fields a b c d sep e f "") as (Hy & Hm & Hp).
  cbn zeta in *. rewrite Hp, Hy, Hm by reflexivity. clear Hp Hy Hm.
  destruct (is_digit a) eqn:Ha; [|reflexivity].
  destruct (is_digit b) eqn:Hb; [|reflexivity].
  destruct (is_digit c) eqn:Hc; [|reflexivity].
  destruct (is_digit d) eqn:Hd; [|reflexivity].
  destruct (Ascii.eqb "M" sep); [|reflexivity].
  destruct (is_digit e) eqn:He; [|reflexivity].
  destruct (is_digit f) eqn:Hf; [|reflexivity].
  pose proof (year_digits_bound a b c d Ha Hb Hc Hd) as Hy.
  cbn [andb].
  destruct (_ && _) eqn:E.
  - apply andb_prop in E as [E Hy1]. apply andb_prop in E as [Hm1 Hm2].
    apply dt_new_first; lia.
  - apply dt_new_ValueError. intros [Hy1 Hm1].
    apply andb_false_iff in E as [E|E]; [apply andb_false_iff in E as [E|E]|]; lia.
Qed.

Lemma append_empty (s : string) : s ++ "" = s.
Proof. induction s as [|c s IH]; cbn; [reflexivity|now rewrite IH]. Qed.

(** C6, amended: [parse_month] returns the date of every token made
    of a four-digit year from 0001 to 9999, the letter M and a
    two-digit month from 01 to 12, and raises ValueError on every
    other string, a string that is such a token followed by one line
    feed left aside. *)
Theorem parse_month_accepts (s : string) :
  (is_month_token s = true ->
   parse_month s = Ok (dt.mk (year_digits s) (month_digits s) 1))
  /\ (is_month_token s = false ->
      (forall t, s = t ++ String LF "" -> is_month_token t = false) ->
      parse_month s = Raise ValueError).
Proof.
  split.
  - intros H.
    assert (Hlen : length s = 7%nat).
    { unfold is_month_token, fixed_pattern in H.
      destruct (Nat.eqb_spec (length s) 7); [assumption|discriminate]. }
    pose proof (parse_month_seven s "" Hlen eq_refl) as P.
    rewrite append_empty, H in P. exact P.
  - intros H Hlf.
    destruct (month_parts s) as [[y mm]|] eqn:E; [|now rewrite parse_month_eq, E].
    unfold month_parts in E.
    destruct s as [|a [|b [|c [|d [|sep [|e [|f rest]]]]]]]; try discriminate.
    destruct (_ && _) eqn:D in E; [|discriminate]. clear E.
    apply andb_prop in D as [_ Hend].
    set (t := String a (String b (String c (String d (String sep (String e (String f ""))))))).
    change (parse_month (t ++ rest) = Raise ValueError).
    rewrite (parse_month_seven t rest eq_refl Hend).
    destruct rest as [|x [|x' rest]]; try discriminate.
    + change (is_month_token t = false) in H. now rewrite H.
    + apply Ascii.eqb_eq in Hend. subst x.
      rewrite (Hlf t eq_refl). reflexivity.
Qed.

Lemma parse_month_accepts_witness :
  parse_month "2025M01" = Ok (dt.mk 2025 1 1)
  /\ parse_month "2025M13" = Raise ValueError.
Proof.
  split.
  - apply (proj1 (parse_month_accepts "2025M01")). reflexivity.
  - apply (proj2 (parse_month_accepts "2025M13")); [reflexivity|].
    intros t H. destruct t as [|a [|b [|c [|d [|e [|f [|g [|h t]]]]]]]]; discriminate.
Defined.

(** C6 as first stated fails on the year 0000: the token has the
    fixed pattern, and [dt.date] has no year 0. *)
Lemma parse_month_year_0000 :
  fixed_pattern "0000M01" = true /\ parse_month "0000M01" = Raise ValueError.
Proof. split; reflexivity. Qed.

(** C5: the token 0999M01 is accepted and comes back as 999M01, the
    year without its leading zero; a token followed by a line feed is
    accepted too and comes back without the line feed. *)
Theorem month_to_str_parse_month_0999 :
  parse_month "0999M01" = Ok (dt.mk 999 1 1)
  /\ month_to_str (dt.mk 999 1 1) = "999M01"
  /\ parse_month ("2025M01" ++ String LF "") = Ok (dt.mk 2025 1 1)
  /\ month_to_str (dt.mk 2025 1 1) = "2025M01".
Proof. repeat split; reflexivity. Qed.

(** ** The layout of the table *)

Lemma nth_error_skipn {A : Type} (l : list A) (i : nat) :
  match nth_error l i with
  | Some x => skipn i l = x :: skipn (S i) l
  | None => skipn i l = []
  end.
Proof.
  revert i. induction l as [|a l IH]; intros [|i]; cbn; try reflexivity.
  apply IH.
Qed.

Lemma skipn_skipn_combine {A B : Type} (ms : list A) (l : list B) (i : nat) :
  skipn (i + List.length (combine ms (skipn i l))) l = skipn (List.length ms) (skipn i l).
Proof.
  revert i. induction ms as [|m ms IH]; intros i.
  - cbn. now rewrite Nat.add_0_r.
  - pose proof (nth_error_skipn l i) as H.
    destruct (nth_error l i) as [x|]; rewrite H.
    + change (skipn (List.length (m :: ms)) (x :: skipn (S i) l))
        with (skipn (List.length ms) (skipn (S i) l)).
      rewrite <- IH. f_equal. cbn [combine List.length]. lia.
    + cbn [combine List.length skipn]. rewrite Nat.add_0_r. exact H.
Qed.

Lemma combine_app_skipn {A B : Type} (l1 l2 : list A) (xs : list B) :
  combine (l1 ++ l2) xs = (combine l1 xs ++ combine l2 (skipn (List.length l1) xs))%list.
Proof.
  revert xs. induction l1 as [|a l1 IH]; intros xs; cbn; [reflexivity|].
  destruct xs as [|x xs]; cbn.
  - now destruct l2.
  - now rewrite IH.
Qed.

Lemma rows_of_region_eq (rc : string) (numbers : list Z) (months : list string)
    (rows : list row) (idx : nat) :
  rows_of_region rc months numbers rows idx =
  ((rows ++ map row_of (combine (map (pair rc) months) (skipn idx numbers)))%list,
   (idx + List.length (combine months (skipn idx numbers)))%nat).
Proof.
  revert rows idx. induction months as [|mo months IH]; intros rows idx.
  - cbn. now rewrite app_nil_r, Nat.add_0_r.
  - cbn [rows_of_region]. pose proof (nth_error_skipn numbers idx) as H.
    destruct (nth_error numbers idx) as [val|]; rewrite H.
    + rewrite IH, <- app_assoc. cbn [map combine List.length app]. f_equal. lia.
    + cbn [map combine List.length]. now rewrite app_nil_r, Nat.add_0_r.
Qed.

Lemma build_rows_from (months : list string) (numbers : list Z) (reg_codes : list string)
    (rows : list row) (idx : nat) :
  fst (fold_left (fun st rc => rows_of_region rc months numbers (fst st) (snd st))
         reg_codes (rows, idx)) =
  (rows ++ map row_of (combine (layout reg_codes months) (skipn idx numbers)))%list.
Proof.
  revert rows idx. induction reg_codes as [|rc reg_codes IH]; intros rows idx; cbn.
  - now rewrite app_nil_r.
  - rewrite rows_of_region_eq. cbn [fst snd]. rewrite IH.
    rewrite <- app_assoc. f_equal.
    rewrite combine_app_skipn, map_app, length_map. f_equal.
    now rewrite skipn_skipn_combine.
Qed.

(** The nested loops pair the numbers with the layout, one by one,
    until either runs out. *)
Lemma build_rows_eq (reg_codes months : list string) (numbers : list Z) :
  build_rows reg_codes months numbers =
  map row_of (combine (layout reg_codes months) numbers).
Proof. unfold build_rows. now rewrite build_rows_from. Qed.

Lemma length_layout (reg_codes months : list string) :
  List.length (layout reg_codes months) = (List.length reg_codes * List.length months)%nat.
Proof.
  unfold layout. induction reg_codes as [|rc l IH]; cbn; [reflexivity|].
  now rewrite length_app, length_map, IH.
Qed.



(** ** What the matcher returns *)

Lemma append_assoc (a b c : string) : (a ++ b) ++ c = a ++ (b ++ c).
Proof. induction a as [|x a IH]; cbn; [reflexivity|now rewrite IH]. Qed.

Lemma length_append (a b : string) : length (a ++ b) = (length a + length b)%nat.
Proof. induction a as [|x a IH]; cbn; [reflexivity|now rewrite IH]. Qed.

Lemma substring_prefix (pre rest : string) :
  substring 0 (length pre) (pre ++ rest) = pre.
Proof.
  induction pre as [|c pre IH]; cbn.
  - now destruct rest.
  - now rewrite IH.
Qed.

Lemma strip_sound (p s s' : string) : re.strip p s = Some s' -> s = p ++ s'.
Proof.
  revert s. induction p as [|a p IH]; intros s H; cbn in *.
  - congruence.
  - destruct s as [|b s]; [discriminate|].
    destruct (Ascii.eqb_spec a b); [|discriminate].
    subst. f_equal. now apply IH.
Qed.

(** A repetition that matches has taken a run of characters of its
    class, within its bounds, and handed the rest to what follows. *)
Lemma rep_sound {A : Type} (cls : ascii -> bool) (s : string) :
  forall (lo : nat) (hi : option nat) (n : nat) (k : string -> nat -> option A) (x : A),
  re.rep cls lo hi s n k = Some x ->
  exists pre rest,
    s = pre ++ rest /\ all_chars cls pre = true /\ (lo <= length pre)%nat
    /\ match hi with Some h => (length pre <= h)%nat | None => True end
    /\ k rest (n + length pre)%nat = Some x.
Proof.
  assert (Hstop : forall lo hi n (k : string -> nat -> option A) x s0,
             match lo with O => k s0 n | S _ => None end = Some x ->
             exists pre rest,
               s0 = pre ++ rest /\ all_chars cls pre = true /\ (lo <= length pre)%nat
               /\ match hi with Some h => (length pre <= h)%nat | None => True end
               /\ k rest (n + length pre)%nat = Some x).
  { intros lo hi n k x s0 H. destruct lo; [|discriminate].
    exists "", s0. cbn. rewrite Nat.add_0_r.
    repeat split; auto. destruct hi; [lia|exact I]. }
  induction s as [|c s IH]; intros lo hi n k x H; cbn in H.
  - now apply Hstop.
  - destruct (cls c && re.room hi) eqn:E; [|now apply Hstop].
    destruct (re.rep cls (Nat.pred lo) (option_map Nat.pred hi) s (S n) k) as [y|] eqn:R;
      [|now apply Hstop].
    injection H as <-. apply andb_prop in E as [Hc Hroom].
    destruct (IH _ _ _ _ _ R) as (pre & rest & -> & Hall & Hlo & Hhi & Hk).
    exists (String c pre), rest. cbn. rewrite Hc, Hall.
    replace (n + S (length pre))%nat with (S n + length pre)%nat by lia.
    repeat split; auto; [lia|].
    destruct hi as [[|h]|]; cbn in *; try discriminate; try exact I. lia.
Qed.

Lemma search_from_sound (r : re.regex) (s : string) :
  forall (n : nat) (m : re.Match),
  re.search_from r s n = Some m -> exists s' n', re.match_at r s' n' = Some m.
Proof.
  induction s as [|c s IH]; intros n m H; cbn in H.
  - destruct (re.match_at r "" n) eqn:E; [|discriminate]. injection H as <-. eauto.
  - destruct (re.match_at r (String c s) n) eqn:E.
    + injection H as <-. eauto.
    + eapply IH, H.
Qed.

Lemma findall_from_sound (r : re.regex) (s : string) :
  forall n skip,
  Forall (fun x => exists s' n' m, re.match_at r s' n' = Some m /\ x = re.group0 m)
    (re.findall_from r s n skip).
Proof.
  induction s as [|c s IH]; intros n skip; cbn.
  - constructor.
  - destruct skip as [|j]; [|apply IH].
    destruct (re.match_at r (String c s) n) as [m|] eqn:E; [|apply IH].
    constructor; [eauto|apply IH].
Qed.

Lemma all_digits_eq (s : string) : all_digits s = all_chars is_digit s.
Proof. induction s as [|c s IH]; cbn; [reflexivity|now rewrite IH]. Qed.

(** A match of [-?\d+] is a numeral with at most one minus sign in
    front, which [int] reads. *)
Lemma INT_RE_match (s : string) (n : nat) (m : re.Match) :
  re.match_at INT_RE s n = Some m -> exists v, int (re.group0 m) = Ok v.
Proof.
  unfold re.match_at, INT_RE. cbn [re.run]. intros H.
  apply rep_sound in H as (p1 & r1 & -> & Hp1 & _ & Hlen1 & H).
  apply rep_sound in H as (p2 & r2 & -> & Hp2 & Hlen2 & _ & H).
  injection H as <-. cbn [re.group0].
  replace (n + length p1 + length p2 - n)%nat with (length (p1 ++ p2)) by (rewrite length_append; lia).
  rewrite <- append_assoc, substring_prefix.
  assert (Hnum : is_numeral p2 = true).
  { destruct p2 as [|c p2]; [cbn in Hlen2; lia|].
    unfold is_numeral. now rewrite all_digits_eq. }
  destruct p1 as [|c [|c' p1]]; cbn in Hlen1; try lia.
  - cbn [append]. rewrite (int_numeral _ Hnum). eauto.
  - cbn [all_chars] in Hp1. rewrite andb_true_r in Hp1. apply Ascii.eqb_eq in Hp1. subst c.
    cbn [append]. unfold int. rewrite Hnum. eauto.
Qed.

Lemma mapM_total {A B : Type} (f : A -> result B) (l : list A) :
  Forall (fun x => exists v, f x = Ok v) l ->
  exists vs, mapM f l = Ok vs /\ List.length vs = List.length l.
Proof.
  induction 1 as [|x l [v Hv] _ (vs & Hvs & Hlen)]; cbn.
  - now exists [].
  - rewrite Hv, Hvs. cbn. exists (v :: vs). cbn. now rewrite Hlen.
Qed.

(** [int] reads every number [re.findall] finds. *)
Lemma numbers_total (block : string) :
  exists numbers,
    mapM int (re.findall INT_RE block) = Ok numbers
    /\ List.length numbers = List.length (re.findall INT_RE block).
Proof.
  apply mapM_total. unfold re.findall.
  eapply Forall_impl; [|apply findall_from_sound].
  intros x (s' & n' & m & Hm & ->). eapply INT_RE_match, Hm.
Qed.





(** The example of the specification: two regions, two months, four
    values. *)
Example fetch_scb_two_by_two :
  fetch_scb (fun _ => Response 200 (table_text ["0581"; "0680"] "100,200,110,210"))
    ["2025M01"; "2025M02"]
  = Ok [mkRow Norrkoping "2025M01" 100; mkRow Norrkoping "2025M02" 200;
        mkRow Jonkoping "2025M01" 110; mkRow Jonkoping "2025M02" 210].
Proof. reflexivity. Qed.

(** ** The region codes of the response *)

Lemma split_no_separator (sep : string) (c0 : ascii) (s : string) :
  all_chars (fun c => negb (Ascii.eqb c c0)) s = true ->
  forall cur, split_from (String c0 sep) s cur 0 = [cur ++ s].
Proof.
  induction s as [|c s IH]; intros H cur; cbn in *.
  - now rewrite append_empty.
  - apply andb_prop in H as [Hc Hs].
    destruct (ascii_dec c0 c) as [->|_].
    + now rewrite Ascii.eqb_refl in Hc.
    + rewrite (IH Hs). now rewrite append_assoc.
Qed.

(** A match of [CODES_RE] has a group without a double quote: one
    code, never a list of them. *)
Lemma CODES_RE_match (s : string) (n : nat) (m : re.Match) :
  re.match_at CODES_RE s n = Some m ->
  all_chars (fun c => negb (Ascii.eqb c QUOTE)) (re.group m 1) = true.
Proof.
  unfold re.match_at, CODES_RE. cbn [re.run]. intros H.
  destruct (re.strip _ s) as [s1|]; [|discriminate].
  apply rep_sound in H as (p & r & -> & Hp & _ & _ & H).
  destruct (re.strip _ r) as [s2|]; [|discriminate].
  injection H as <-. cbn [re.group re.groups app Nat.sub nth].
  match goal with
  | |- context [substring 0 ?k _] => replace k with (length p) by lia
  end.
  now rewrite substring_prefix.
Qed.

(** The codes a response is read with are those of the request,
    unless its [CODES] line lists exactly one code. *)
Lemma response_codes_cases (text : string) :
  response_codes text = REGION_CODES \/ exists rc, response_codes text = [rc].
Proof.
  unfold response_codes, re.search.
  destruct (re.search_from CODES_RE text 0) as [m|] eqn:E; [right|now left].
  apply search_from_sound in E as (s' & n' & E). apply CODES_RE_match in E.
  exists (re.group m 1). unfold split. cbn [append].
  now rewrite split_no_separator.
Qed.

(** C3: a response that lists the region codes as 0680, 0581 and
    the values 1, 2 for one month.  [CODES_RE] does not match the
    line, the request order 0581, 0680 is used, and the value 1, which
    the response gives for 0680, is returned for 0581: the rows are
    not those of the layout in the order of the [CODES] line. *)
Theorem fetch_scb_codes_order :
  re.search CODES_RE (table_text ["0680"; "0581"] "1 2") = None
  /\ response_codes (table_text ["0680"; "0581"] "1 2") = ["0581"; "0680"]
  /\ fetch_scb (fun _ => Response 200 (table_text ["0680"; "0581"] "1 2")) ["2025M01"]
     = Ok [mkRow (region_name "0581") "2025M01" 1; mkRow (region_name "0680") "2025M01" 2]
  /\ fetch_scb (fun _ => Response 200 (table_text ["0680"; "0581"] "1 2")) ["2025M01"]
     <> Ok (map row_of (combine (layout ["0680"; "0581"] ["2025M01"]) [1; 2])).
Proof.
  split; [reflexivity|]. split; [reflexivity|]. split; [reflexivity|].
  intros H. vm_compute in H. discriminate H.
Qed.

(** ** Merging *)

Lemma set_of_from {A : Type} (dec : forall a b : A, {a = b} + {a <> b}) (l : list A) :
  forall (s : set A) (x : A),
  set_In x (fold_left (fun s x => set_add dec x s) l s) <-> set_In x s \/ In x l.
Proof.
  induction l as [|a l IH]; intros s x; cbn.
  - tauto.
  - rewrite IH, set_add_iff. intuition congruence.
Qed.

Lemma set_of_In {A : Type} (dec : forall a b : A, {a = b} + {a <> b}) (l : list A) (x : A) :
  set_In x (set_of dec l) <-> In x l.
Proof. unfold set_of. rewrite set_of_from. cbn. tauto. Qed.

Lemma set_mem_iff {A : Type} (dec : forall a b : A, {a = b} + {a <> b}) (x : A) (s : set A) :
  set_mem dec x s = true <-> set_In x s.
Proof.
  split; [apply set_mem_correct1|apply set_mem_correct2].
Qed.

Lemma merge_step_seen (rows : list row) (seen : set key) (added : Z) (r : row) :
  set_In (key_of r) seen -> merge_step (rows, seen, added) r = (rows, seen, added).
Proof.
  intros H. unfold merge_step. now rewrite (proj2 (set_mem_iff key_dec _ _) H).
Qed.

(** What the loop over [new_rows] leaves: the rows it started with,
    then the fetched rows whose pair was not seen before, each pair
    once; [added] counts them. *)
Lemma merge_from (new_rows : list row) :
  forall (rows : list row) (seen : set key) (added : Z)
         (rows' : list row) (seen' : set key) (added' : Z),
  fold_left merge_step new_rows (rows, seen, added) = (rows', seen', added') ->
  exists fresh,
    rows' = (rows ++ fresh)%list
    /\ added' = added + Z.of_nat (List.length fresh)
    /\ (forall r, In r fresh -> In r new_rows /\ ~ set_In (key_of r) seen)
    /\ NoDup (map key_of fresh)
    /\ (forall k, set_In k seen' <-> set_In k seen \/ In k (map key_of fresh))
    /\ (forall r, In r new_rows -> set_In (key_of r) seen').
Proof.
  induction new_rows as [|r new_rows IH]; intros rows seen added rows' seen' added' H.
  - cbn in H. injection H as <- <- <-. exists []. rewrite app_nil_r. cbn.
    split; [reflexivity|]. split; [lia|]. split; [intros r []|].
    split; [constructor|]. split; [tauto|intros r []].
  - cbn [fold_left] in H. unfold merge_step at 2 in H.
    destruct (set_mem key_dec (key_of r) seen) eqn:E.
    + apply set_mem_iff in E.
      destruct (IH _ _ _ _ _ _ H) as (fresh & -> & -> & Hin & Hnd & Hseen & Hall).
      exists fresh. split; [reflexivity|]. split; [reflexivity|]. split; [|split; [|split]].
      * intros x Hx. destruct (Hin x Hx). split; [now right|assumption].
      * exact Hnd.
      * exact Hseen.
      * intros x [->|Hx]; [apply Hseen; now left|now apply Hall].
    + assert (E' : ~ set_In (key_of r) seen).
      { intros Hc. apply (proj2 (set_mem_iff key_dec _ _)) in Hc. congruence. }
      destruct (IH _ _ _ _ _ _ H) as (fresh & -> & -> & Hin & Hnd & Hseen & Hall).
      exists (r :: fresh). rewrite <- app_assoc. cbn [app List.length map].
      split; [reflexivity|]. split; [lia|]. split; [|split; [|split]].
      * intros x [<-|Hx]; [split; [now left|exact E']|].
        destruct (Hin x Hx) as [Hnew Hns]. split; [now right|].
        intros Hc. apply Hns, set_add_iff. now right.
      * constructor; [|exact Hnd].
        intros Hc. apply in_map_iff in Hc as (x & Hk & Hx).
        apply (Hin _ Hx). apply set_add_iff. left. now symmetry.
      * intros k. rewrite Hseen, set_add_iff. cbn [In]. intuition.
      * intros x [->|Hx]; [|now apply Hall].
        apply Hseen. left. apply set_add_iff. now left.
Qed.

Lemma merge_all_seen (rows : list row) (seen : set key) (new_rows : list row) :
  (forall r, In r new_rows -> set_In (key_of r) seen) ->
  merge rows seen new_rows = (rows, seen, 0).
Proof.
  unfold merge. generalize 0.
  induction new_rows as [|r new_rows IH]; intros added H; cbn [fold_left]; [reflexivity|].
  rewrite merge_step_seen by (apply H; now left).
  apply IH. intros x Hx. apply H. now right.
Qed.

(** ** The order of dates, of strings and of sort keys *)

Lemma dt_eqb_eq (a b : dt.date) : dt.eqb a b = true <-> a = b.
Proof.
  destruct a as [y m d], b as [y' m' d']. unfold dt.eqb. cbn. split.
  - intros H. apply andb_prop in H as [H Hd]. apply andb_prop in H as [Hy Hm].
    f_equal; lia.
  - intros [= -> -> ->]. now rewrite !Z.eqb_refl.
Qed.

Lemma dt_ltb_spec (a b : dt.date) :
  dt.ltb a b = true <->
  dt.year a < dt.year b
  \/ (dt.year a = dt.year b
      /\ (dt.month a < dt.month b \/ (dt.month a = dt.month b /\ dt.day a < dt.day b))).
Proof. unfold dt.ltb. lia. Qed.

Lemma dt_ltb_trans (a b c : dt.date) :
  dt.ltb a b = true -> dt.ltb b c = true -> dt.ltb a c = true.
Proof. rewrite !dt_ltb_spec. lia. Qed.

Lemma dt_ltb_irrefl (a : dt.date) : dt.ltb a a = false.
Proof. apply not_true_is_false. rewrite dt_ltb_spec. lia. Qed.

Lemma dt_ltb_total (a b : dt.date) :
  dt.ltb a b = false -> dt.eqb a b = false -> dt.ltb b a = true.
Proof.
  intros H E. apply not_true_iff_false in H. rewrite dt_ltb_spec in *.
  apply not_true_iff_false in E. rewrite dt_eqb_eq in E.
  destruct a as [y m d], b as [y' m' d']. cbn in *.
  assert (~ (y = y' /\ m = m' /\ d = d')) by (intros (-> & -> & ->); now apply E).
  lia.
Qed.

Lemma dt_leb_spec (a b : dt.date) : dt.leb a b = true <-> dt.ltb a b = true \/ a = b.
Proof. unfold dt.leb. rewrite orb_true_iff, dt_eqb_eq. tauto. Qed.

Lemma ascii_compare_trans (a b c : ascii) :
  Ascii.compare a b = Lt -> Ascii.compare b c = Lt -> Ascii.compare a c = Lt.
Proof. unfold Ascii.compare. rewrite !N.compare_lt_iff. apply N.lt_trans. Qed.

Lemma string_compare_refl (a : string) : String.compare a a = Eq.
Proof.
  induction a as [|x a IH]; cbn; [reflexivity|].
  unfold Ascii.compare. now rewrite N.compare_refl.
Qed.

Lemma string_compare_trans (a : string) :
  forall b c, String.compare a b = Lt -> String.compare b c = Lt -> String.compare a c = Lt.
Proof.
  induction a as [|x a IH]; intros [|y b] [|z c]; cbn; try congruence.
  destruct (Ascii.compare x y) eqn:Exy; try discriminate;
    destruct (Ascii.compare y z) eqn:Eyz; try discriminate; intros Hab Hbc.
  - apply Ascii.compare_eq_iff in Exy, Eyz. subst.
    unfold Ascii.compare. rewrite N.compare_refl. eapply IH; eassumption.
  - apply Ascii.compare_eq_iff in Exy. subst. now rewrite Eyz.
  - apply Ascii.compare_eq_iff in Eyz. subst. now rewrite Exy.
  - now rewrite (ascii_compare_trans _ _ _ Exy Eyz).
Qed.

Lemma string_leb_cases (a b : string) :
  String.leb a b = true <-> String.compare a b = Lt \/ a = b.
Proof.
  unfold String.leb. destruct (String.compare a b) eqn:E.
  - apply String.compare_eq_iff in E. tauto.
  - tauto.
  - split; [discriminate|]. intros [H|H]; [discriminate|].
    subst. now rewrite string_compare_refl in E.
Qed.

Lemma string_leb_trans (a b c : string) :
  String.leb a b = true -> String.leb b c = true -> String.leb a c = true.
Proof.
  rewrite !string_leb_cases. intros [H1|E1] [H2|E2]; subst; auto.
  left. eapply string_compare_trans; eassumption.
Qed.

Lemma string_ltb_false (a b : string) : String.ltb a b = false -> String.leb b a = true.
Proof.
  unfold String.ltb, String.leb. rewrite (String.compare_antisym a b).
  destruct (String.compare b a); cbn; congruence.
Qed.

Lemma string_ltb_leb (a b : string) : String.ltb a b = true -> String.leb a b = true.
Proof. unfold String.ltb, String.leb. destruct (String.compare a b); congruence. Qed.

Lemma month_region_le_trans (a b c : dt.date * string) :
  month_region_le a b -> month_region_le b c -> month_region_le a c.
Proof.
  unfold month_region_le. intros [H1|[E1 H1]] [H2|[E2 H2]].
  - left. eapply dt_ltb_trans; eassumption.
  - left. now rewrite <- E2.
  - left. now rewrite E1.
  - right. split; [congruence|]. eapply string_leb_trans; eassumption.
Qed.

Lemma sort_key_ltb_true (a b : dt.date * string) :
  sort_key_ltb a b = true -> month_region_le a b.
Proof.
  unfold sort_key_ltb, month_region_le.
  destruct (dt.eqb (fst a) (fst b)) eqn:E; intros H.
  - right. split; [now apply dt_eqb_eq|now apply string_ltb_leb].
  - now left.
Qed.

Lemma sort_key_ltb_false (a b : dt.date * string) :
  sort_key_ltb a b = false -> month_region_le b a.
Proof.
  unfold sort_key_ltb, month_region_le.
  destruct (dt.eqb (fst a) (fst b)) eqn:E; intros H.
  - right. apply dt_eqb_eq in E. split; [congruence|now apply string_ltb_false].
  - left. now apply dt_ltb_total.
Qed.

(** ** Sorting *)

Lemma insert_keyed_perm (x : (dt.date * string) * row) (l : list ((dt.date * string) * row)) :
  Permutation (insert_keyed x l) (x :: l).
Proof.
  induction l as [|y l IH]; cbn; [reflexivity|].
  destruct (sort_key_ltb (fst x) (fst y)); [reflexivity|].
  rewrite IH. apply perm_swap.
Qed.

Lemma insert_keyed_sorted (x : (dt.date * string) * row) (l : list ((dt.date * string) * row)) :
  StronglySorted keyed_le l -> StronglySorted keyed_le (insert_keyed x l).
Proof.
  induction 1 as [|y l Hs IH Hy]; cbn.
  - repeat constructor.
  - destruct (sort_key_ltb (fst x) (fst y)) eqn:E.
    + apply sort_key_ltb_true in E.
      constructor; [now constructor|].
      constructor; [exact E|].
      eapply Forall_impl; [|exact Hy].
      intros z Hz. eapply month_region_le_trans; eassumption.
    + apply sort_key_ltb_false in E.
      constructor; [exact IH|].
      eapply Permutation_Forall; [symmetry; apply insert_keyed_perm|].
      now constructor.
Qed.

Lemma sort_keyed_from (l : list ((dt.date * string) * row)) :
  forall acc,
  StronglySorted keyed_le acc ->
  StronglySorted keyed_le (fold_left (fun sorted x => insert_keyed x sorted) l acc)
  /\ Permutation (fold_left (fun sorted x => insert_keyed x sorted) l acc) (l ++ acc).
Proof.
  induction l as [|x l IH]; intros acc Hacc; cbn [fold_left app].
  - now split.
  - destruct (IH (insert_keyed x acc) (insert_keyed_sorted x acc Hacc)) as [Hs Hp].
    split; [exact Hs|].
    rewrite Hp, insert_keyed_perm. symmetry. apply Permutation_middle.
Qed.

Lemma sort_keyed_spec (l : list ((dt.date * string) * row)) :
  StronglySorted keyed_le (sort_keyed l) /\ Permutation (sort_keyed l) l.
Proof.
  destruct (sort_keyed_from l [] (SSorted_nil _)) as [Hs Hp].
  rewrite app_nil_r in Hp. now split.
Qed.

Lemma sort_key_ltb_asym (a b : dt.date * string) :
  sort_key_ltb a b = true -> ~ month_region_le b a.
Proof.
  unfold sort_key_ltb, month_region_le.
  destruct (dt.eqb (fst a) (fst b)) eqn:E; intros H [Hlt|[Heq Hle]].
  - apply dt_eqb_eq in E. rewrite E, dt_ltb_irrefl in Hlt. discriminate.
  - unfold String.ltb in H. unfold String.leb in Hle.
    rewrite (String.compare_antisym (snd b) (snd a)) in Hle.
    destruct (String.compare (snd a) (snd b)); discriminate.
  - pose proof (dt_ltb_trans _ _ _ H Hlt) as T. rewrite dt_ltb_irrefl in T. discriminate.
  - apply not_true_iff_false in E. apply E, dt_eqb_eq. congruence.
Qed.

Lemma filter_none {A : Type} (f : A -> bool) (l : list A) :
  (forall z, In z l -> f z = false) -> filter f l = [].
Proof.
  induction l as [|z l IH]; intros H; cbn; [reflexivity|].
  rewrite (H z (or_introl eq_refl)). apply IH. intros w Hw. apply H. now right.
Qed.

(** Rows of one key keep the order they came in: the sort is
    stable, as [list.sort] is. *)
Lemma insert_keyed_stable (k : dt.date * string) (x : (dt.date * string) * row)
    (l : list ((dt.date * string) * row)) :
  StronglySorted keyed_le l ->
  filter (same_key k) (insert_keyed x l) = (filter (same_key k) l ++ filter (same_key k) [x])%list.
Proof.
  induction 1 as [|y l Hs IH Hy]; [reflexivity|].
  cbn [insert_keyed]. destruct (sort_key_ltb (fst x) (fst y)) eqn:E.
  - destruct (same_key k x) eqn:Kx.
    + assert (Hnone : filter (same_key k) (y :: l) = []).
      { apply filter_none. intros z Hz. apply not_true_iff_false. intros Kz.
        unfold same_key in Kx, Kz.
        apply andb_prop in Kx as [Kx1 Kx2]. apply andb_prop in Kz as [Kz1 Kz2].
        apply negb_true_iff in Kx1, Kx2, Kz1, Kz2.
        apply (sort_key_ltb_asym _ _ E).
        apply month_region_le_trans with (b := fst z).
        - destruct Hz as [<-|Hz].
          + right. split; [reflexivity|]. apply string_leb_cases. now right.
          + apply (proj1 (Forall_forall _ _) Hy z Hz).
        - apply month_region_le_trans with (b := k); now apply sort_key_ltb_false. }
      cbn [filter] in *. rewrite Kx. rewrite Hnone. reflexivity.
    + cbn [filter]. rewrite Kx. now rewrite app_nil_r.
  - cbn [filter]. rewrite IH. now destruct (same_key k y).
Qed.

Lemma sort_keyed_stable (k : dt.date * string) (l : list ((dt.date * string) * row)) :
  filter (same_key k) (sort_keyed l) = filter (same_key k) l.
Proof.
  unfold sort_keyed.
  assert (H : forall acc, StronglySorted keyed_le acc ->
            filter (same_key k) (fold_left (fun sorted x => insert_keyed x sorted) l acc)
            = (filter (same_key k) acc ++ filter (same_key k) l)%list).
  { induction l as [|x l IH]; intros acc Hacc; cbn [fold_left].
    - now rewrite app_nil_r.
    - rewrite IH by now apply insert_keyed_sorted.
      rewrite insert_keyed_stable by assumption.
      rewrite <- app_assoc. f_equal. cbn [filter]. now destruct (same_key k x). }
  now rewrite (H [] (SSorted_nil _)).
Qed.

Lemma mapM_combine {A B : Type} (f : A -> result B) (l : list A) :
  forall ys, mapM f l = Ok ys ->
  map snd (combine ys l) = l /\ Forall (fun p => f (snd p) = Ok (fst p)) (combine ys l).
Proof.
  induction l as [|x l IH]; intros ys H; cbn in H.
  - injection H as <-. cbn. split; constructor.
  - destruct (f x) as [y|] eqn:Ex; [|discriminate]. cbn in H.
    destruct (mapM f l) as [ys'|]; [|discriminate]. cbn in H.
    injection H as <-. destruct (IH ys' eq_refl) as [Hm Hf].
    cbn. rewrite Hm. split; [reflexivity|]. now constructor.
Qed.

Lemma mapM_keyed {A B : Type} (f : A -> result B) (l : list (B * A)) :
  Forall (fun p => f (snd p) = Ok (fst p)) l -> mapM f (map snd l) = Ok (map fst l).
Proof.
  induction 1 as [|p l Hp _ IH]; cbn; [reflexivity|].
  now rewrite Hp, IH.
Qed.

Lemma StronglySorted_map_fst (l : list ((dt.date * string) * row)) :
  StronglySorted keyed_le l -> StronglySorted month_region_le (map fst l).
Proof.
  induction 1 as [|p l _ IH Hp]; cbn; constructor; [exact IH|].
  apply Forall_map. exact Hp.
Qed.

(** [rows.sort(key=sort_key)], when no key raises, leaves the same
    rows in ascending order of their keys. *)
Lemma sort_rows_spec (rows sorted : list row) :
  sort_rows rows = Ok sorted -> sorted_rows sorted /\ Permutation sorted rows.
Proof.
  unfold sort_rows. destruct (mapM sort_key rows) as [keys|] eqn:E; [|discriminate].
  cbn [bind]. intros [= <-].
  destruct (mapM_combine _ _ _ E) as [Hm Hf].
  destruct (sort_keyed_spec (combine keys rows)) as [Hs Hp].
  split.
  - exists (map fst (sort_keyed (combine keys rows))). split.
    + apply mapM_keyed. eapply Permutation_Forall; [symmetry; exact Hp|exact Hf].
    + now apply StronglySorted_map_fst.
  - rewrite <- Hm at 2. now apply Permutation_map.
Qed.

(** ** Runs *)

(** A run that writes has merged at least one fetched row whose pair
    was not seen, and writes the sorted result. *)
Lemma merge_and_persist_written (rows : list row) (seen : set key) (new_rows : list row)
    (z : Z) (written : list row) :
  merge_and_persist rows seen new_rows = Ok (z, Some written) ->
  exists fresh seen',
    merge rows seen new_rows = ((rows ++ fresh)%list, seen', Z.of_nat (List.length fresh))
    /\ fresh <> []
    /\ (forall r, In r fresh -> In r new_rows /\ ~ set_In (key_of r) seen)
    /\ NoDup (map key_of fresh)
    /\ sort_rows (rows ++ fresh) = Ok written.
Proof.
  unfold merge_and_persist.
  destruct (merge rows seen new_rows) as [[rows' seen'] added] eqn:E.
  unfold merge in E.
  destruct (merge_from _ _ _ _ _ _ _ E) as (fresh & -> & -> & Hin & Hnd & _ & _).
  destruct (0 + Z.of_nat (List.length fresh) =? 0) eqn:Z0; [discriminate|].
  destruct (sort_rows (rows ++ fresh)) as [sorted|] eqn:S; [|discriminate].
  cbn [bind]. intros [= <- <-].
  exists fresh, seen'. repeat split; auto; try apply Hin; auto.
  intros ->. cbn in Z0. discriminate.
Qed.

Lemma merge_and_persist_not_added (rows : list row) (seen : set key) (new_rows : list row)
    (rows' : list row) (seen' : set key) :
  merge rows seen new_rows = (rows', seen', 0) ->
  merge_and_persist rows seen new_rows = Ok (0, None).
Proof. intros H. unfold merge_and_persist. now rewrite H. Qed.

(** A run that writes has loaded a file, made a request that was
    answered, and merged the answer. *)
Lemma main_written (f : file) (today : dt.date) (api : list string -> http)
    (z : Z) (written : list row) :
  main f today api = Ok (z, Some written) ->
  exists rows0 months new_rows,
    f = Some rows0
    /\ fetch_scb api months = Ok new_rows
    /\ merge_and_persist (loaded_rows f) (loaded_seen f) new_rows
       = Ok (z, Some written).
Proof.
  unfold main, loaded_rows, loaded_seen. destruct f as [rows0|].
  - destruct (read_existing (Some rows0)) as [[rows seen] latest].
    destruct (dt.new _ _ _) as [first_of_this|]; [|discriminate]. cbn [bind].
    destruct (add_months _ _) as [end_|]; [|discriminate]. cbn [bind].
    destruct latest as [latest|]; [|discriminate].
    destruct (dt.leb end_ latest); [discriminate|].
    destruct (months_between _ _) as [months|]; [|discriminate]. cbn [bind].
    destruct (fetch_scb api months) as [new_rows|] eqn:F; [|discriminate]. cbn [bind].
    intros H. exists rows0, months, new_rows. auto.
  - cbn. destruct (dt.new _ _ _) as [first_of_this|]; [|discriminate]. cbn [bind].
    destruct (add_months _ _) as [end_|]; discriminate.
Qed.

(** What [read_existing] hands on: rows of the file, in their order,
    and exactly their pairs as the index. *)
Lemma read_existing_rows (rows0 : list row) :
  exists keep,
    loaded_rows (Some rows0) = filter keep rows0
    /\ loaded_seen (Some rows0) = set_of key_dec (map key_of (filter keep rows0)).
Proof.
  unfold loaded_rows, loaded_seen, read_existing.
  destruct (find_latest_complete_month rows0 _) as [l|].
  - eexists. cbn [fst snd]. split; reflexivity.
  - exists (fun _ => true). cbn [fst snd].
    assert (H : filter (fun _ : row => true) rows0 = rows0).
    { induction rows0 as [|r l IH]; cbn; [reflexivity|now rewrite IH]. }
    now rewrite H.
Qed.

Lemma distinct_keys_filter (keep : row -> bool) (rows : list row) :
  distinct_keys rows -> distinct_keys (filter keep rows).
Proof.
  unfold distinct_keys. induction rows as [|r rows IH]; cbn; [auto|].
  intros H. inversion H as [|k ks Hk Hks]; subst.
  destruct (keep r); cbn; [constructor|]; auto.
  intros Hin. apply Hk. apply in_map_iff in Hin as (x & Hx & Hf).
  apply in_map_iff. exists x. split; [exact Hx|]. now apply filter_In in Hf.
Qed.

Lemma distinct_keys_app (rows fresh : list row) :
  distinct_keys rows -> NoDup (map key_of fresh) ->
  (forall r, In r fresh -> ~ In (key_of r) (map key_of rows)) ->
  distinct_keys (rows ++ fresh).
Proof.
  unfold distinct_keys. intros Hr Hf Hd. rewrite map_app.
  induction rows as [|r rows IH]; cbn; [exact Hf|].
  inversion Hr as [|k ks Hk Hks]; subst. constructor.
  - rewrite in_app_iff. intros [H|H]; [now apply Hk|].
    apply in_map_iff in H as (x & Hx & Hin). apply (Hd x Hin). left. now symmetry.
  - apply IH; [exact Hks|]. intros x Hx Hc. apply (Hd x Hx). now right.
Qed.

Lemma main_written_spec (f : file) (today : dt.date) (api : list string -> http)
    (z : Z) (written : list row) :
  main f today api = Ok (z, Some written) ->
  sorted_rows written
  /\ (forall rows0, f = Some rows0 -> distinct_keys rows0 -> distinct_keys written).
Proof.
  intros H. apply main_written in H as (rows0 & months & new_rows & -> & _ & H).
  destruct (read_existing_rows rows0) as (keep & Hrows & Hseen).
  rewrite Hrows, Hseen in H.
  apply merge_and_persist_written in H as (fresh & seen' & _ & _ & Hin & Hnd & S).
  apply sort_rows_spec in S as [Hs Hp]. split; [exact Hs|].
  intros ? [= <-] Hd. unfold distinct_keys.
  eapply Permutation_NoDup; [symmetry; apply Permutation_map, Hp|].
  apply distinct_keys_app; [now apply distinct_keys_filter|exact Hnd|].
  intros r Hr Hc. apply (Hin r Hr). now apply set_of_In.
Qed.

Lemma run_dataset_ok (f : file) (today : dt.date) (api : list string -> http) :
  dataset_ok f -> dataset_ok (run f today api).
Proof.
  intros H. unfold run.
  destruct (main f today api) as [[z [written|]]|] eqn:E; try exact H.
  pose proof (main_written_spec _ _ _ _ _ E) as [Hs Hd]. split; [exact Hs|].
  destruct f as [rows0|].
  - apply (Hd rows0 eq_refl). apply H.
  - apply main_written in E as (rows0 & _ & _ & [=] & _).
Qed.

(** C1: a run that writes the file writes a list sorted by decoded
    month and then by region name, in which no two entries share their
    (region, month) pair unless two entries of the file it read did;
    and a file that is sorted and without repeated pairs stays so
    through any sequence of runs. *)
Theorem persisted_sorted_distinct :
  (forall f today api z written,
     main f today api = Ok (z, Some written) ->
     sorted_rows written
     /\ (forall rows0, f = Some rows0 -> distinct_keys rows0 -> distinct_keys written))
  /\ (forall f days, dataset_ok f -> dataset_ok (runs f days)).
Proof.
  split.
  - intros f today api z written. apply main_written_spec.
  - intros f days. unfold runs. revert f.
    induction days as [|d days IH]; intros f H; cbn; [exact H|].
    apply IH. now apply run_dataset_ok.
Qed.

Ltac ascending :=
  repeat constructor;
  unfold month_region_le; cbn;
  first [ left; reflexivity | right; split; reflexivity ].

Ltac no_repeat := unfold distinct_keys; cbn; repeat constructor; cbn; intuition discriminate.

Lemma persisted_sorted_distinct_witness :
  run file_2025M01 day_2025_03_15 api_two_values
  = Some [mkRow Jonkoping "2025M01" 145000; mkRow Norrkoping "2025M01" 144000;
          mkRow Jonkoping "2025M02" 145100; mkRow Norrkoping "2025M02" 144100]
  /\ dataset_ok (runs file_2025M01 [(day_2025_03_15, api_two_values)]).
Proof.
  split; [reflexivity|].
  apply (proj2 persisted_sorted_distinct). split.
  - eexists. split; [reflexivity|]. ascending.
  - no_repeat.
Defined.

(** C8: a fetched observation whose (region, month) pair is in the
    index is skipped, rows, index and count staying as they were;
    when every fetched observation is such, the merge adds nothing
    and the end of [main] returns without writing; and [main] never
    writes after a merge that added no row. *)
Theorem merge_skips_seen (rows : list row) (seen : set key) (new_rows : list row) :
  (forall r, In r new_rows -> set_In (key_of r) seen) ->
  (forall r added, In r new_rows -> merge_step (rows, seen, added) r = (rows, seen, added))
  /\ merge rows seen new_rows = (rows, seen, 0)
  /\ merge_and_persist rows seen new_rows = Ok (0, None)
  /\ (forall f today api z written,
        main f today api = Ok (z, Some written) ->
        exists months fetched rows' seen' added,
          fetch_scb api months = Ok fetched
          /\ merge (loaded_rows f) (loaded_seen f) fetched
             = (rows', seen', added)
          /\ 0 < added).
Proof.
  intros H. split; [|split; [|split]].
  - intros r added Hr. apply merge_step_seen. now apply H.
  - now apply merge_all_seen.
  - eapply merge_and_persist_not_added. now apply merge_all_seen.
  - intros f today api z written E.
    apply main_written in E as (rows0 & months & fetched & _ & F & E).
    apply merge_and_persist_written in E as (fresh & seen' & M & Hne & _).
    exists months, fetched, (loaded_rows f ++ fresh)%list, seen',
      (Z.of_nat (List.length fresh)).
    split; [exact F|]. split; [exact M|]. destruct fresh; [congruence|cbn; lia].
Qed.

Lemma merge_skips_seen_witness :
  merge [mkRow Jonkoping "2025M01" 145000] [(Jonkoping, "2025M01")]
    [mkRow Jonkoping "2025M01" 7]
  = ([mkRow Jonkoping "2025M01" 145000], [(Jonkoping, "2025M01")], 0).
Proof.
  apply (merge_skips_seen [mkRow Jonkoping "2025M01" 145000] [(Jonkoping, "2025M01")]
           [mkRow Jonkoping "2025M01" 7]).
  intros r [<-|[]]. left. reflexivity.
Defined.

(** An existing row is in the list the end of [main] writes, and
    the written rows of its pair are existing rows. *)
Lemma merge_and_persist_keeps (rows : list row) (seen : set key) (new_rows : list row)
    (e : row) (z : Z) (written : list row) :
  In e rows -> set_In (key_of e) seen ->
  merge_and_persist rows seen new_rows = Ok (z, Some written) ->
  In e written /\ forall x, In x written -> key_of x = key_of e -> In x rows.
Proof.
  intros He Hseen W.
  apply merge_and_persist_written in W as (fresh & seen' & _ & _ & Hin & _ & S).
  apply sort_rows_spec in S as [_ Hp]. split.
  - apply (Permutation_in _ (Permutation_sym Hp)). apply in_app_iff. now left.
  - intros x Hx Hkx. apply (Permutation_in _ Hp) in Hx.
    apply in_app_iff in Hx as [Hx|Hx]; [exact Hx|].
    destruct (Hin x Hx) as [_ Hnew]. now rewrite Hkx in Hnew.
Qed.

Lemma loaded_seen_In (f : file) (e : row) :
  In e (loaded_rows f) -> set_In (key_of e) (loaded_seen f).
Proof.
  destruct f as [rows0|]; [|intros []].
  destruct (read_existing_rows rows0) as (keep & -> & ->).
  intros H. apply set_of_In. now apply in_map.
Qed.

(** C10, amended: when a fetched observation [r] has the (region,
    month) pair of an observation [e] of the loaded rows and another
    population, the merge leaves the loaded rows as they are and
    appends only rows of other pairs; if the list is then written, [e]
    is in it and every written observation of that pair was among the
    loaded ones, so is [e] itself when their pairs were distinct; and
    so it is for every run of [main] that writes. *)
Theorem merge_keeps_existing (rows : list row) (seen : set key) (new_rows : list row)
    (e r : row) :
  In e rows -> set_In (key_of e) seen ->
  In r new_rows -> key_of r = key_of e -> population r <> population e ->
  (exists fresh,
     fst (fst (merge rows seen new_rows)) = (rows ++ fresh)%list
     /\ ~ In r fresh
     /\ forall x, In x fresh -> key_of x <> key_of e)
  /\ (forall z written,
        merge_and_persist rows seen new_rows = Ok (z, Some written) ->
        In e written
        /\ (forall x, In x written -> key_of x = key_of e -> In x rows)
        /\ (distinct_keys rows -> forall x, In x written -> key_of x = key_of e -> x = e))
  /\ (forall f today api z written,
        loaded_rows f = rows ->
        main f today api = Ok (z, Some written) ->
        In e written /\ forall x, In x written -> key_of x = key_of e -> In x rows).
Proof.
  intros He Hseen Hr Hk Hpop.
  assert (Hfresh : forall fresh,
             (forall x, In x fresh -> In x new_rows /\ ~ set_In (key_of x) seen) ->
             forall x, In x fresh -> key_of x <> key_of e).
  { intros fresh Hin x Hx Hc. apply (Hin x Hx). now rewrite Hc. }
  split; [|split].
  - destruct (merge rows seen new_rows) as [[rows' seen'] added] eqn:M.
    unfold merge in M.
    destruct (merge_from _ _ _ _ _ _ _ M) as (fresh & -> & _ & Hin & _).
    exists fresh. cbn [fst]. split; [reflexivity|]. split.
    + intros Hc. apply (Hfresh fresh Hin r Hc Hk).
    + now apply Hfresh.
  - intros z written W.
    destruct (merge_and_persist_keeps _ _ _ e _ _ He Hseen W) as [Hw Hold].
    split; [exact Hw|]. split; [exact Hold|].
    intros Hd x Hx Hkx. specialize (Hold x Hx Hkx).
    clear - Hd He Hold Hkx. unfold distinct_keys in Hd.
    induction rows as [|y rows IH]; [contradiction|].
    cbn in Hd. inversion Hd as [|k ks Hy Hks]; subst.
    destruct He as [->|He], Hold as [->|Hx]; auto.
    + exfalso. apply Hy. rewrite <- Hkx. now apply in_map.
    + exfalso. apply Hy. rewrite Hkx. now apply in_map.
  - intros f today api z written Hf W. subst rows.
    apply main_written in W as (rows0 & months & fetched & _ & _ & W).
    apply (merge_and_persist_keeps _ _ _ e _ _ He (loaded_seen_In f e He) W).
Qed.

Lemma merge_keeps_existing_witness :
  In (mkRow Jonkoping "2025M01" 145000)
    [mkRow Jonkoping "2025M01" 145000; mkRow Jonkoping "2025M02" 8].
Proof.
  apply (proj1 (proj2 (merge_keeps_existing
                  [mkRow Jonkoping "2025M01" 145000] [(Jonkoping, "2025M01")]
                  [mkRow Jonkoping "2025M01" 7; mkRow Jonkoping "2025M02" 8]
                  (mkRow Jonkoping "2025M01" 145000) (mkRow Jonkoping "2025M01" 7)
                  (or_introl eq_refl) (or_introl eq_refl) (or_introl eq_refl) eq_refl
                  ltac:(cbn; lia)))
          0 [mkRow Jonkoping "2025M01" 145000; mkRow Jonkoping "2025M02" 8] eq_refl).
Defined.

(** C10 as first stated fails on a value persisted for a month after
    the latest complete month: the file holds 144050 for Norrkoping in
    2025M02, a month Jonkoping has no value for; the load drops that
    row, the month is fetched again, and the file is rewritten with
    the fetched 144100 in its place. *)
Lemma partial_month_refetched :
  loaded_rows (Some [mkRow Jonkoping "2025M01" 145000; mkRow Norrkoping "2025M01" 144000;
                     mkRow Norrkoping "2025M02" 144050])
  = [mkRow Jonkoping "2025M01" 145000; mkRow Norrkoping "2025M01" 144000]
  /\ main (Some [mkRow Jonkoping "2025M01" 145000; mkRow Norrkoping "2025M01" 144000;
                 mkRow Norrkoping "2025M02" 144050])
       day_2025_03_15 api_two_values
     = Ok (0, Some [mkRow Jonkoping "2025M01" 145000; mkRow Norrkoping "2025M01" 144000;
                    mkRow Jonkoping "2025M02" 145100; mkRow Norrkoping "2025M02" 144100]).
Proof. split; reflexivity. Qed.

(** ** The latest complete month *)

Lemma dict_add_keys (m r : string) (d : list (string * set string)) (tok : string) :
  In tok (map fst (dict_add m r d)) <-> tok = m \/ In tok (map fst d).
Proof.
  induction d as [|[m' s] d IH]; cbn.
  - intuition.
  - destruct (String.eqb_spec m' m) as [->|Hne]; cbn; [intuition|].
    rewrite IH. intuition.
Qed.

Lemma dict_add_NoDup (m r : string) (d : list (string * set string)) :
  NoDup (map fst d) -> NoDup (map fst (dict_add m r d)).
Proof.
  induction d as [|[m' s] d IH]; cbn; intros H.
  - repeat constructor. auto.
  - inversion H as [|k ks Hk Hks]; subst.
    destruct (String.eqb_spec m' m) as [->|Hne]; cbn; [now constructor|].
    constructor; [|now apply IH].
    rewrite dict_add_keys. intros [->|Hc]; [congruence|now apply Hk].
Qed.

Lemma dict_add_In (m r : string) (d : list (string * set string)) (tok : string)
    (s : set string) :
  NoDup (map fst d) ->
  In (tok, s) (dict_add m r d) ->
  (tok <> m /\ In (tok, s) d)
  \/ (tok = m /\ ((exists s0, In (m, s0) d /\ s = set_add string_dec r s0)
                  \/ (~ In m (map fst d) /\ s = set_add string_dec r (empty_set string)))).
Proof.
  induction d as [|[m' s'] d IH]; cbn; intros Hnd H.
  - destruct H as [[= <- <-]|[]]. right. split; [reflexivity|]. right. auto.
  - inversion Hnd as [|k ks Hk Hks]; subst.
    destruct (String.eqb_spec m' m) as [->|Hne].
    + destruct H as [[= <- <-]|H].
      * right. split; [reflexivity|]. left. exists s'. auto.
      * left. split; [|now right]. intros ->. apply Hk.
        apply in_map_iff. now exists (m, s).
    + destruct H as [[= <- <-]|H].
      * left. split; [exact Hne|now left].
      * destruct (IH Hks H) as [[Ht Hin]|[-> [(s0 & Hin & ->)|[Hnin ->]]]].
        -- left. split; [exact Ht|now right].
        -- right. split; [reflexivity|]. left. exists s0. split; [now right|reflexivity].
        -- right. split; [reflexivity|]. right. split; [|reflexivity].
           intros [Hc|Hc]; [congruence|now apply Hnin].
Qed.

Lemma groups_of_step (rows : list row) (d : list (string * set string)) (r : row) :
  groups_of rows d ->
  groups_of (rows ++ [r]) (dict_add (month r) (region r) d).
Proof.
  intros (Hnd & Hkeys & Hsets). split; [now apply dict_add_NoDup|]. split.
  - intros tok. rewrite dict_add_keys, map_app, in_app_iff, Hkeys. cbn. intuition.
  - intros tok s x H.
    apply dict_add_In in H as [[Hne Hin]|[-> [(s0 & Hin & ->)|[Hnin ->]]]];
      [| | |exact Hnd].
    + rewrite (Hsets _ _ x Hin). split; intros (r0 & Hr0 & Hm & Hr).
      * exists r0. rewrite in_app_iff. auto.
      * apply in_app_iff in Hr0 as [Hr0|[<-|[]]]; [eauto|congruence].
    + rewrite set_add_iff, (Hsets _ _ x Hin). split.
      * intros [->|(r0 & Hr0 & Hm & Hr)].
        -- exists r. rewrite in_app_iff. cbn. auto.
        -- exists r0. rewrite in_app_iff. auto.
      * intros (r0 & Hr0 & Hm & Hr).
        apply in_app_iff in Hr0 as [Hr0|[<-|[]]]; [right; eauto|now left].
    + rewrite set_add_iff. split.
      * intros [->|[]]. exists r. rewrite in_app_iff. cbn. auto.
      * intros (r0 & Hr0 & Hm & Hr).
        apply in_app_iff in Hr0 as [Hr0|[<-|[]]]; [|now left].
        exfalso. apply Hnin, Hkeys. rewrite <- Hm. now apply in_map.
Qed.

Lemma regions_by_month_from (rows : list row) :
  forall prev d, groups_of prev d ->
  groups_of (prev ++ rows) (fold_left (fun d r => dict_add (month r) (region r) d) rows d).
Proof.
  induction rows as [|r rows IH]; intros prev d H; cbn [fold_left].
  - now rewrite app_nil_r.
  - replace (prev ++ r :: rows)%list with ((prev ++ [r]) ++ rows)%list
      by (now rewrite <- app_assoc).
    apply IH. now apply groups_of_step.
Qed.

Lemma regions_by_month_spec (rows : list row) : groups_of rows (regions_by_month rows).
Proof.
  apply (regions_by_month_from rows [] []).
  split; [constructor|]. split; [cbn; tauto|]. intros tok s x [].
Qed.

Lemma set_eqb_spec (a b : set string) :
  set_eqb a b = true <-> forall x, set_In x a <-> set_In x b.
Proof.
  unfold set_eqb. rewrite andb_true_iff, !forallb_forall. split.
  - intros [Hab Hba] x. split; intros Hx.
    + apply (set_mem_iff string_dec), Hab, Hx.
    + apply (set_mem_iff string_dec), Hba, Hx.
  - intros H. split; intros x Hx; apply (set_mem_iff string_dec), H, Hx.
Qed.

Lemma dt_leb_refl (a : dt.date) : dt.leb a a = true.
Proof. apply dt_leb_spec. now right. Qed.

Lemma dt_leb_trans (a b c : dt.date) :
  dt.leb a b = true -> dt.leb b c = true -> dt.leb a c = true.
Proof.
  rewrite !dt_leb_spec. intros [H1|H1] [H2|H2]; subst; auto.
  left. eapply dt_ltb_trans; eassumption.
Qed.

Lemma dt_leb_antisym (a b : dt.date) : dt.leb a b = true -> dt.leb b a = true -> a = b.
Proof.
  rewrite !dt_leb_spec. intros [H1|H1] [H2|H2]; subst; auto.
  pose proof (dt_ltb_trans _ _ _ H1 H2) as H. now rewrite dt_ltb_irrefl in H.
Qed.

Lemma dt_ltb_false_leb (a b : dt.date) : dt.ltb a b = false -> dt.leb b a = true.
Proof.
  intros H. unfold dt.leb. destruct (dt.eqb b a) eqn:E; [apply orb_true_r|].
  rewrite (dt_ltb_total a b H); [reflexivity|].
  apply not_true_iff_false. intros Hc. apply dt_eqb_eq in Hc. subst.
  apply not_true_iff_false in E. apply E. now apply dt_eqb_eq.
Qed.

Lemma latest_step_spec (all_region_names : set string) (acc : option dt.date)
    (item : string * set string) :
  let acc' := latest_step all_region_names acc item in
  (acc' = acc \/ exists d, counts all_region_names item d /\ acc' = Some d)
  /\ (forall a, acc = Some a -> exists d, acc' = Some d /\ dt.leb a d = true)
  /\ (forall d', counts all_region_names item d' ->
        exists d, acc' = Some d /\ dt.leb d' d = true).
Proof.
  destruct item as [tok s]. unfold counts, latest_step. cbn [fst snd].
  assert (Hsame : forall acc0 : option dt.date,
             forall a, acc0 = Some a -> exists d, acc0 = Some d /\ dt.leb a d = true).
  { intros acc0 a ->. exists a. split; [reflexivity|apply dt_leb_refl]. }
  destruct (set_eqb s all_region_names); cbn zeta.
  - destruct (parse_month tok) as [d|e].
    + destruct acc as [l|].
      * destruct (dt.ltb l d) eqn:E.
        -- split; [right; eauto|]. split.
           ++ intros a [= <-]. exists d. split; [reflexivity|].
              apply dt_leb_spec. now left.
           ++ intros d' [_ [= <-]]. exists d. split; [reflexivity|apply dt_leb_refl].
        -- split; [now left|]. split; [apply Hsame|].
           intros d' [_ [= <-]]. exists l. split; [reflexivity|].
           now apply dt_ltb_false_leb.
      * split; [right; eauto|]. split; [discriminate|].
        intros d' [_ [= <-]]. exists d. split; [reflexivity|apply dt_leb_refl].
    + split; [now left|]. split; [apply Hsame|]. intros d' [_ [=]].
  - split; [now left|]. split; [apply Hsame|]. intros d' [[=] _].
Qed.

Lemma latest_fold (all_region_names : set string) (items : list (string * set string)) :
  forall acc,
  let res := fold_left (latest_step all_region_names) items acc in
  (res = acc \/ exists item d, In item items /\ counts all_region_names item d /\ res = Some d)
  /\ (forall a, acc = Some a -> exists d, res = Some d /\ dt.leb a d = true)
  /\ (forall item d', In item items -> counts all_region_names item d' ->
        exists d, res = Some d /\ dt.leb d' d = true).
Proof.
  induction items as [|item items IH]; intros acc; cbn [fold_left].
  - cbn zeta. split; [now left|]. split.
    + intros a ->. exists a. split; [reflexivity|apply dt_leb_refl].
    + intros item d' [].
  - destruct (latest_step_spec all_region_names acc item) as (S1 & S2 & S3).
    destruct (IH (latest_step all_region_names acc item)) as (I1 & I2 & I3).
    cbn zeta in *. split; [|split].
    + destruct I1 as [I1|(it & d & Hin & Hc & Hres)].
      * destruct S1 as [S1|(d & Hc & Hd)].
        -- left. congruence.
        -- right. exists item, d. split; [now left|]. split; [exact Hc|congruence].
      * right. exists it, d. split; [now right|]. split; [exact Hc|exact Hres].
    + intros a Ha. destruct (S2 a Ha) as (d & Hd & Hle).
      destruct (I2 d Hd) as (d2 & Hd2 & Hle2). exists d2. split; [exact Hd2|].
      eapply dt_leb_trans; eassumption.
    + intros it d' [<-|Hin] Hc.
      * destruct (S3 d' Hc) as (d & Hd & Hle).
        destruct (I2 d Hd) as (d2 & Hd2 & Hle2). exists d2. split; [exact Hd2|].
        eapply dt_leb_trans; eassumption.
      * now apply (I3 it d').
Qed.

Lemma counts_complete (rows : list row) (all_region_names : set string)
    (tok : string) (s : set string) :
  In (tok, s) (regions_by_month rows) ->
  (set_eqb s all_region_names = true <-> complete_month rows all_region_names tok).
Proof.
  intros Hin. destruct (regions_by_month_spec rows) as (Hnd & Hkeys & Hsets).
  rewrite set_eqb_spec. unfold complete_month. split.
  - intros H. split.
    + apply Hkeys. apply in_map_iff. now exists (tok, s).
    + intros x. rewrite <- (H x). apply (Hsets _ _ x Hin).
  - intros [_ H] x. rewrite (H x). apply (Hsets _ _ x Hin).
Qed.

(** [find_latest_complete_month] returns the greatest date a
    complete month token parses to. *)
Lemma find_latest_complete_month_spec (rows : list row) (all_region_names : set string) :
  latest_complete rows all_region_names (find_latest_complete_month rows all_region_names).
Proof.
  unfold find_latest_complete_month.
  destruct (latest_fold all_region_names (regions_by_month rows) None) as (F1 & _ & F3).
  cbn zeta in *.
  destruct (regions_by_month_spec rows) as (Hnd & Hkeys & Hsets).
  assert (Hmax : forall tok d', complete_month rows all_region_names tok ->
             parse_month tok = Ok d' ->
             exists d, fold_left (latest_step all_region_names) (regions_by_month rows) None
                       = Some d /\ dt.leb d' d = true).
  { intros tok d' Hc Hp. pose proof Hc as [Hin _].
    apply Hkeys, in_map_iff in Hin as ([tok' s] & Ht & Hin). cbn in Ht. subst tok'.
    apply (F3 (tok, s) d' Hin). split; [|exact Hp].
    cbn [snd]. now apply (counts_complete rows all_region_names tok s Hin). }
  destruct (fold_left _ _ None) as [d|] eqn:E; cbn.
  - split.
    + destruct F1 as [F1|([tok s] & d0 & Hin & [Hc Hp] & Hres)]; [discriminate|].
      injection Hres as <-. exists tok. split; [|exact Hp].
      now apply (counts_complete rows all_region_names tok s Hin).
    + intros tok d' Hc Hp. destruct (Hmax tok d' Hc Hp) as (d0 & [= <-] & Hle). exact Hle.
  - intros tok d' Hc Hp. destruct (Hmax tok d' Hc Hp) as (d0 & [=] & _).
Qed.

Lemma latest_complete_unique (rows : list row) (all_region_names : set string)
    (a b : option dt.date) :
  latest_complete rows all_region_names a -> latest_complete rows all_region_names b -> a = b.
Proof.
  destruct a as [a|], b as [b|]; cbn; auto.
  - intros [(ta & Ca & Pa) Ma] [(tb & Cb & Pb) Mb]. f_equal.
    apply dt_leb_antisym; eauto.
  - intros [(ta & Ca & Pa) _] H. now destruct (H ta a Ca).
  - intros H [(tb & Cb & Pb) _]. now destruct (H tb b Cb).
Qed.

(** ** Loading *)

Lemma loaded_latest_eq (rows0 : list row) :
  loaded_latest (Some rows0) = find_latest_complete_month rows0 tracked_regions.
Proof.
  unfold loaded_latest, read_existing. fold tracked_regions.
  now destruct (find_latest_complete_month rows0 tracked_regions).
Qed.

Lemma loaded_rows_eq (rows0 : list row) :
  loaded_rows (Some rows0) =
  match loaded_latest (Some rows0) with
  | Some d => filter (fun r => String.leb (month r) (month_to_str d)) rows0
  | None => rows0
  end.
Proof.
  rewrite loaded_latest_eq. unfold loaded_rows, read_existing. fold tracked_regions.
  now destruct (find_latest_complete_month rows0 tracked_regions).
Qed.

Lemma complete_month_parses (rows : list row) (all_region_names : set string)
    (tok : string) (d : dt.date) :
  parse_month tok = Ok d ->
  (complete_month rows all_region_names tok
   <-> complete_month (filter parses rows) all_region_names tok).
Proof.
  intros Hp.
  assert (Hrow : forall r, month r = tok -> (In r rows <-> In r (filter parses rows))).
  { intros r Hm. rewrite filter_In. unfold parses. rewrite Hm, Hp. tauto. }
  unfold complete_month. rewrite !in_map_iff.
  split; intros [(r & Hm & Hr) Hall]; split.
  - exists r. split; [exact Hm|]. now apply (Hrow r Hm).
  - intros x. rewrite (Hall x). split; intros (r0 & Hr0 & Hm0 & Hx); exists r0;
      (split; [now apply (Hrow r0 Hm0)|auto]).
  - exists r. split; [exact Hm|]. now apply (Hrow r Hm).
  - intros x. rewrite (Hall x). split; intros (r0 & Hr0 & Hm0 & Hx); exists r0;
      (split; [now apply (Hrow r0 Hm0)|auto]).
Qed.

(** Rows whose month token does not parse have no part in the
    latest complete month. *)
Lemma find_latest_complete_month_parses (rows : list row) (all_region_names : set string) :
  find_latest_complete_month rows all_region_names
  = find_latest_complete_month (filter parses rows) all_region_names.
Proof.
  apply (latest_complete_unique rows all_region_names);
    [apply find_latest_complete_month_spec|].
  pose proof (find_latest_complete_month_spec (filter parses rows) all_region_names) as H.
  destruct (find_latest_complete_month (filter parses rows) all_region_names) as [d|];
    cbn [latest_complete] in *.
  - destruct H as [(tok & Hc & Hp) Hmax]. split.
    + exists tok. split; [|exact Hp].
      apply (proj2 (complete_month_parses rows _ _ _ Hp)), Hc.
    + intros t d' Hc' Hp'. apply (Hmax t d'); [|exact Hp'].
      apply (proj1 (complete_month_parses rows _ _ _ Hp')), Hc'.
  - intros t d' Hc' Hp'. apply (H t d'); [|exact Hp'].
    apply (proj1 (complete_month_parses rows _ _ _ Hp')), Hc'.
Qed.

(** C4, amended: rows whose month token does not parse are left
    out of the search for the latest complete month; such a row stays
    in the loaded collection exactly when there is no latest complete
    month or its token is not greater, as a string, than the token of
    that month; and a row that stays is in the file when the run
    rewrites it. *)
Theorem malformed_month_rows (rows0 : list row) (r : row) (e : exn) :
  In r rows0 -> parse_month (month r) = Raise e ->
  (forall all_region_names,
     find_latest_complete_month rows0 all_region_names
     = find_latest_complete_month (filter parses rows0) all_region_names)
  /\ (In r (loaded_rows (Some rows0))
      <-> match loaded_latest (Some rows0) with
          | Some d => String.leb (month r) (month_to_str d) = true
          | None => True
          end)
  /\ (forall today api z written,
        main (Some rows0) today api = Ok (z, Some written) ->
        In r (loaded_rows (Some rows0)) -> In r written).
Proof.
  intros Hin Hp. split; [intros a; apply find_latest_complete_month_parses|]. split.
  - rewrite loaded_rows_eq. destruct (loaded_latest (Some rows0)) as [d|].
    + rewrite filter_In. tauto.
    + tauto.
  - intros today api z written W Hr.
    apply main_written in W as (rows1 & months & new_rows & _ & _ & W).
    apply merge_and_persist_written in W as (fresh & seen' & _ & _ & _ & _ & S).
    apply sort_rows_spec in S as [_ Hperm].
    apply (Permutation_in _ (Permutation_sym Hperm)). apply in_app_iff. now left.
Qed.

Lemma malformed_month_rows_witness :
  In (mkRow Norrkoping "1999" 9)
    (loaded_rows (Some [mkRow Jonkoping "2025M01" 1; mkRow Norrkoping "2025M01" 2;
                        mkRow Norrkoping "1999" 9])).
Proof.
  apply (proj2 (proj1 (proj2 (malformed_month_rows
                  [mkRow Jonkoping "2025M01" 1; mkRow Norrkoping "2025M01" 2;
                   mkRow Norrkoping "1999" 9]
                  (mkRow Norrkoping "1999" 9) ValueError
                  (or_intror (or_intror (or_introl eq_refl))) eq_refl)))).
  reflexivity.
Defined.

(** C4 as first stated fails on a token that is greater, as a
    string, than the token of the latest complete month: the row of
    2025M3 does not parse and is dropped on load. *)
Lemma malformed_month_dropped :
  parse_month "2025M3" = Raise ValueError
  /\ loaded_latest (Some [mkRow Jonkoping "2025M01" 1; mkRow Norrkoping "2025M01" 2;
                          mkRow Norrkoping "2025M3" 9]) = Some (dt.mk 2025 1 1)
  /\ loaded_rows (Some [mkRow Jonkoping "2025M01" 1; mkRow Norrkoping "2025M01" 2;
                        mkRow Norrkoping "2025M3" 9])
     = [mkRow Jonkoping "2025M01" 1; mkRow Norrkoping "2025M01" 2].
Proof. repeat split; reflexivity. Qed.

(** ** Tokens of four-digit years *)

Lemma str_digits_step (fuel : nat) (n : Z) (acc : string) :
  10 <= n ->
  str_digits (S fuel) n acc = str_digits fuel (n / 10) (String (digit_char (n mod 10)) acc).
Proof.
  intros H. cbn [str_digits].
  assert (0 < n / 10) by (apply Z.div_str_pos; lia).
  destruct (Z.eqb_spec (n / 10) 0); [lia|reflexivity].
Qed.

Lemma str_digits_last (fuel : nat) (n : Z) (acc : string) :
  0 <= n < 10 -> str_digits (S fuel) n acc = String (digit_char n) acc.
Proof.
  intros H. cbn [str_digits].
  rewrite Z.mod_small, Z.div_small by lia. reflexivity.
Qed.

Lemma str_four_digits (a b c d : Z) :
  1 <= a <= 9 -> 0 <= b <= 9 -> 0 <= c <= 9 -> 0 <= d <= 9 ->
  str (1000 * a + 100 * b + 10 * c + d)
  = String (digit_char a) (String (digit_char b) (String (digit_char c)
      (String (digit_char d) ""))).
Proof.
  intros Ha Hb Hc Hd. unfold str, str_nat.
  set (n := 1000 * a + 100 * b + 10 * c + d).
  destruct (Z.ltb_spec n 0); [lia|].
  destruct (Z.to_nat n) as [|[|[|k]]] eqn:E; try lia.
  assert (D1 : n / 10 = 100 * a + 10 * b + c)
    by (symmetry; apply Z.div_unique with (r := d); lia).
  assert (M1 : n mod 10 = d)
    by (symmetry; apply Z.mod_unique with (q := 100 * a + 10 * b + c); lia).
  assert (D2 : (100 * a + 10 * b + c) / 10 = 10 * a + b)
    by (symmetry; apply Z.div_unique with (r := c); lia).
  assert (M2 : (100 * a + 10 * b + c) mod 10 = c)
    by (symmetry; apply Z.mod_unique with (q := 10 * a + b); lia).
  assert (D3 : (10 * a + b) / 10 = a)
    by (symmetry; apply Z.div_unique with (r := b); lia).
  assert (M3 : (10 * a + b) mod 10 = b)
    by (symmetry; apply Z.mod_unique with (q := a); lia).
  rewrite str_digits_step, D1, M1 by lia.
  rewrite str_digits_step, D2, M2 by lia.
  rewrite str_digits_step, D3, M3 by lia.
  now rewrite str_digits_last by lia.
Qed.

Lemma format_02d_two_digits (e f : Z) :
  0 <= e <= 9 -> 0 <= f <= 9 -> 1 <= 10 * e + f <= 12 ->
  format_02d (10 * e + f) = String (digit_char e) (String (digit_char f) "").
Proof.
  intros He Hf Hm.
  assert (C : (e = 0 /\ (f = 1 \/ f = 2 \/ f = 3 \/ f = 4 \/ f = 5 \/ f = 6 \/ f = 7
                         \/ f = 8 \/ f = 9))
              \/ (e = 1 /\ (f = 0 \/ f = 1 \/ f = 2))) by lia.
  destruct C as [[-> C]|[-> C]]; repeat (destruct C as [->|C]); subst; reflexivity.
Qed.

Lemma month_to_str_digits (a b c d e f : Z) :
  1 <= a <= 9 -> 0 <= b <= 9 -> 0 <= c <= 9 -> 0 <= d <= 9 ->
  0 <= e <= 9 -> 0 <= f <= 9 -> 1 <= 10 * e + f <= 12 ->
  month_to_str (dt.mk (1000 * a + 100 * b + 10 * c + d) (10 * e + f) 1)
  = token_of_digits a b c d e f.
Proof.
  intros. unfold month_to_str. cbn [dt.year dt.month].
  rewrite str_four_digits, format_02d_two_digits by assumption. reflexivity.
Qed.

(** The digits of a first-of-month date with a four-digit year. *)
Lemma four_digit_year_digits (dd : dt.date) :
  four_digit_year dd ->
  exists a b c d e f,
    (1 <= a <= 9 /\ 0 <= b <= 9 /\ 0 <= c <= 9 /\ 0 <= d <= 9
     /\ 0 <= e <= 9 /\ 0 <= f <= 9)
    /\ dt.year dd = 1000 * a + 100 * b + 10 * c + d
    /\ dt.month dd = 10 * e + f
    /\ month_to_str dd = token_of_digits a b c d e f.
Proof.
  intros (Hy & Hm & Hd). destruct dd as [y m day]. cbn in *. subst day.
  exists (y / 1000), (y / 100 mod 10), (y / 10 mod 10), (y mod 10), (m / 10), (m mod 10).
  assert (B : (1 <= y / 1000 <= 9 /\ 0 <= y / 100 mod 10 <= 9 /\ 0 <= y / 10 mod 10 <= 9
               /\ 0 <= y mod 10 <= 9 /\ 0 <= m / 10 <= 9 /\ 0 <= m mod 10 <= 9)
              /\ y = 1000 * (y / 1000) + 100 * (y / 100 mod 10) + 10 * (y / 10 mod 10) + y mod 10
              /\ m = 10 * (m / 10) + m mod 10).
  { pose proof (Z.div_mod y 1000 ltac:(lia)). pose proof (Z.mod_pos_bound y 1000 ltac:(lia)).
    pose proof (Z.div_mod y 100 ltac:(lia)). pose proof (Z.mod_pos_bound y 100 ltac:(lia)).
    pose proof (Z.div_mod y 10 ltac:(lia)). pose proof (Z.mod_pos_bound y 10 ltac:(lia)).
    pose proof (Z.div_mod (y / 100) 10 ltac:(lia)).
    pose proof (Z.mod_pos_bound (y / 100) 10 ltac:(lia)).
    pose proof (Z.div_mod (y / 10) 10 ltac:(lia)).
    pose proof (Z.mod_pos_bound (y / 10) 10 ltac:(lia)).
    pose proof (Z.div_mod m 10 ltac:(lia)). pose proof (Z.mod_pos_bound m 10 ltac:(lia)).
    lia. }
  destruct B as (B & Ey & Em). split; [exact B|]. split; [exact Ey|]. split; [exact Em|].
  rewrite Ey at 1. rewrite Em at 1.
  apply month_to_str_digits; lia.
Qed.

Lemma digit_char_compare (u v : Z) :
  0 <= u <= 9 -> 0 <= v <= 9 ->
  Ascii.compare (digit_char u) (digit_char v) = (u ?= v).
Proof.
  intros Hu Hv. unfold Ascii.compare, digit_char.
  rewrite !N_ascii_embedding by lia.
  rewrite Z2N.inj_compare by lia.
  destruct (Z.compare_spec u v), (Z.compare_spec (48 + u) (48 + v));
    try reflexivity; exfalso; lia.
Qed.

(** Tokens of four-digit years compare as their months do. *)
Lemma token_of_digits_leb (a b c d e f a' b' c' d' e' f' : Z) :
  0 <= a <= 9 -> 0 <= b <= 9 -> 0 <= c <= 9 -> 0 <= d <= 9 -> 0 <= e <= 9 -> 0 <= f <= 9 ->
  0 <= a' <= 9 -> 0 <= b' <= 9 -> 0 <= c' <= 9 -> 0 <= d' <= 9 -> 0 <= e' <= 9 ->
  0 <= f' <= 9 ->
  String.leb (token_of_digits a b c d e f) (token_of_digits a' b' c' d' e' f') = true
  <-> 1000 * a + 100 * b + 10 * c + d < 1000 * a' + 100 * b' + 10 * c' + d'
      \/ (1000 * a + 100 * b + 10 * c + d = 1000 * a' + 100 * b' + 10 * c' + d'
          /\ 10 * e + f <= 10 * e' + f').
Proof.
  intros. unfold String.leb, token_of_digits. cbn [String.compare].
  rewrite !digit_char_compare by assumption.
  change (Ascii.compare "M" "M") with Eq. cbn match.
  destruct (Z.compare_spec a a'); [|split; [lia|reflexivity]|split; [discriminate|lia]].
  destruct (Z.compare_spec b b'); [|split; [lia|reflexivity]|split; [discriminate|lia]].
  destruct (Z.compare_spec c c'); [|split; [lia|reflexivity]|split; [discriminate|lia]].
  destruct (Z.compare_spec d d'); [|split; [lia|reflexivity]|split; [discriminate|lia]].
  destruct (Z.compare_spec e e'); [|split; [lia|reflexivity]|split; [discriminate|lia]].
  destruct (Z.compare_spec f f'); split; try reflexivity; try discriminate; lia.
Qed.

Lemma month_to_str_leb (d1 d2 : dt.date) :
  four_digit_year d1 -> four_digit_year d2 ->
  String.leb (month_to_str d1) (month_to_str d2) = dt.leb d1 d2.
Proof.
  intros H1 H2.
  destruct (four_digit_year_digits d1 H1) as (a & b & c & d & e & f & B & Ey & Em & T1).
  destruct (four_digit_year_digits d2 H2) as (a' & b' & c' & d' & e' & f' & B' & Ey' & Em' & T2).
  rewrite T1, T2. apply eq_true_iff_eq.
  rewrite token_of_digits_leb by lia.
  rewrite <- Ey, <- Ey', <- Em, <- Em', dt_leb_spec, dt_ltb_spec.
  destruct H1 as (_ & _ & Hd1), H2 as (_ & _ & Hd2).
  destruct d1 as [y1 m1 day1], d2 as [y2 m2 day2].
  cbn [dt.year dt.month dt.day] in *. subst day1 day2. clear.
  split.
  - intros [Hlt|[Hy Hle]]; [left; lia|]. subst y2.
    destruct (Z.eq_dec m1 m2) as [Hm|Hm]; [subst; now right|left; lia].
  - intros [Hlt|Heq]; [lia|]. injection Heq as -> ->. lia.
Qed.

Lemma parse_month_first (t : string) (d : dt.date) :
  parse_month t = Ok d ->
  1 <= dt.year d <= 9999 /\ 1 <= dt.month d <= 12 /\ dt.day d = 1.
Proof.
  rewrite parse_month_eq. destruct (month_parts t) as [[y mm]|]; [|discriminate].
  intros H. apply dt_new_ok in H as (-> & Hy & Hm & _). cbn. lia.
Qed.


Lemma loaded_latest_first (rows0 : list row) (d : dt.date) :
  loaded_latest (Some rows0) = Some d ->
  1 <= dt.year d <= 9999 /\ 1 <= dt.month d <= 12 /\ dt.day d = 1.
Proof.
  rewrite loaded_latest_eq. intros H.
  pose proof (find_latest_complete_month_spec rows0 tracked_regions) as L.
  rewrite H in L. destruct L as [(tok & _ & Hp) _].
  eapply parse_month_first, Hp.
Qed.



(** ** The loop of [months_between] *)

Lemma dt_leb_ordinal (a b : dt.date) :
  1 <= dt.month a <= 12 -> 1 <= dt.month b <= 12 ->
  dt.leb a b = true -> ordinal a <= ordinal b.
Proof.
  intros Ha Hb H. apply dt_leb_spec in H as [H|H]; [|subst; lia].
  apply dt_ltb_spec in H. unfold ordinal. lia.
Qed.

(** The fuel [months_between] gives the loop is enough: the loop
    returns, with the list or with the exception of [add_months]. *)
Lemma months_loop_finishes (fuel : nat) :
  forall cur end_inclusive out,
  1 <= dt.month cur <= 12 -> 1 <= dt.month end_inclusive <= 12 ->
  ordinal end_inclusive - ordinal cur + 1 <= Z.of_nat fuel ->
  months_loop fuel cur end_inclusive out <> None.
Proof.
  induction fuel as [|fuel IH]; intros cur end_inclusive out Hc He Hf.
  - cbn [months_loop]. destruct (dt.leb cur end_inclusive) eqn:E; [|discriminate].
    apply dt_leb_ordinal in E; [lia|assumption|assumption].
  - cbn [months_loop]. destruct (dt.leb cur end_inclusive) eqn:E; [|discriminate].
    destruct (add_months cur 1) as [cur'|e] eqn:A; [|discriminate].
    apply add_months_ok in A as (_ & Hm & _ & Ho).
    apply IH; [assumption|assumption|lia].
Qed.

Lemma months_between_finishes (start_exclusive : option dt.date) (end_inclusive cur : dt.date) :
  1 <= dt.month end_inclusive <= 12 ->
  match start_exclusive with
  | Some d => add_months d 1
  | None => Ok end_inclusive
  end = Ok cur ->
  months_loop (Z.to_nat (ordinal end_inclusive - ordinal cur + 1)) cur end_inclusive []
  = Some (months_between start_exclusive end_inclusive).
Proof.
  intros He Hcur. unfold months_between. rewrite Hcur. cbn [bind].
  assert (Hm : 1 <= dt.month cur <= 12).
  { destruct start_exclusive as [d|].
    - now apply add_months_ok in Hcur.
    - now injection Hcur as <-. }
  destruct (months_loop _ cur end_inclusive []) as [r|] eqn:E; [reflexivity|].
  exfalso. revert E. apply months_loop_finishes; [assumption|assumption|lia].
Qed.

(** ** [str] writes what [int] reads *)

Lemma is_digit_char (d : Z) : 0 <= d <= 9 -> is_digit (digit_char d) = true.
Proof.
  intros H. unfold is_digit, digit_char, code.
  rewrite N_ascii_embedding by lia. rewrite Z2N.id by lia. lia.
Qed.

Lemma digit_val_char (d : Z) : 0 <= d <= 9 -> digit_val (digit_char d) = d.
Proof.
  intros H. unfold digit_val, digit_char, code.
  rewrite N_ascii_embedding by lia. rewrite Z2N.id by lia. lia.
Qed.

Lemma int_digits_app (x y : string) (a : Z) :
  int_digits (x ++ y) a = int_digits y (int_digits x a).
Proof. revert a. induction x as [|c x IH]; intros a; cbn; [reflexivity|apply IH]. Qed.

Lemma all_digits_app (x y : string) :
  all_digits (x ++ y) = all_digits x && all_digits y.
Proof.
  induction x as [|c x IH]; cbn; [reflexivity|]. now rewrite IH, andb_assoc.
Qed.

(** With enough fuel, [str_digits] writes a numeral of [n] in front
    of [acc]. *)
Lemma str_digits_numeral (fuel : nat) :
  forall n acc, 0 <= n < Z.of_nat fuel ->
  exists ds p,
    str_digits fuel n acc = ds ++ acc
    /\ is_numeral ds = true
    /\ forall a, int_digits ds a = a * p + n.
Proof.
  induction fuel as [|fuel IH]; intros n acc Hn; [lia|].
  cbn [str_digits].
  pose proof (Z.div_mod n 10 ltac:(lia)) as Hdm.
  pose proof (Z.mod_pos_bound n 10 ltac:(lia)) as Hmod.
  destruct (Z.eqb_spec (n / 10) 0) as [Hq|Hq].
  - exists (String (digit_char (n mod 10)) ""), 10.
    cbn [append is_numeral all_digits int_digits].
    rewrite is_digit_char, digit_val_char by lia.
    split; [reflexivity|]. split; [reflexivity|]. intros a. lia.
  - destruct (IH (n / 10) (String (digit_char (n mod 10)) acc)) as (ds & p & E & Hnum & Hval);
      [lia|].
    exists (ds ++ String (digit_char (n mod 10)) ""), (10 * p). split; [|split].
    + now rewrite E, append_assoc.
    + destruct ds as [|c ds]; [discriminate|]. cbn [is_numeral append] in *.
      change (String c (ds ++ String (digit_char (n mod 10)) ""))
        with (String c ds ++ String (digit_char (n mod 10)) "").
      rewrite all_digits_app, Hnum. cbn. now rewrite is_digit_char by lia.
    + intros a. rewrite int_digits_app, Hval. cbn [int_digits].
      rewrite digit_val_char by lia. lia.
Qed.

(** [int(str(n)) == n]. *)
Lemma int_str (n : Z) : int (str n) = Ok n.
Proof.
  unfold str, str_nat. destruct (Z.ltb_spec n 0) as [Hneg|Hpos].
  - destruct (str_digits_numeral (S (Z.to_nat (- n))) (- n) "") as (ds & p & E & Hnum & Hval);
      [lia|].
    rewrite E, append_empty. unfold int. rewrite Hnum, Hval. f_equal; lia.
  - destruct (str_digits_numeral (S (Z.to_nat n)) n "") as (ds & p & E & Hnum & Hval); [lia|].
    rewrite E, append_empty, (int_numeral _ Hnum), Hval. f_equal; lia.
Qed.

(** * Further properties *)

(** ** Month arithmetic *)

Lemma ordinal_month_of_ordinal (o : Z) : ordinal (month_of_ordinal o) = o.
Proof.
  unfold ordinal, month_of_ordinal. cbn [dt.year dt.month].
  pose proof (Z.div_mod o 12 ltac:(lia)). lia.
Qed.

Lemma add_months_ordinal (d : dt.date) (n : Z) (d' : dt.date) :
  add_months d n = Ok d' -> d' = month_of_ordinal (ordinal d + n).
Proof.
  unfold add_months. intros H. apply dt_new_ok in H as (-> & _).
  unfold month_of_ordinal, ordinal.
  set (k := dt.month d - 1 + n).
  replace (12 * dt.year d + (dt.month d - 1) + n)
    with (k + dt.year d * 12) by (unfold k; lia).
  rewrite Z_mod_plus_full, Z.div_add by lia.
  f_equal. lia.
Qed.

Lemma add_months_month_of_ordinal (o n : Z) :
  12 <= o + n <= 12 * 9999 + 11 ->
  add_months (month_of_ordinal o) n = Ok (month_of_ordinal (o + n)).
Proof.
  intros H. destruct (add_months (month_of_ordinal o) n) as [d'|e] eqn:E.
  - apply add_months_ordinal in E. now rewrite ordinal_month_of_ordinal in E; subst.
  - exfalso.
    assert (Hex : exists d', add_months (month_of_ordinal o) n = Ok d').
    { apply add_months_in_range. unfold month_of_ordinal. cbn [dt.year dt.month].
      replace (o mod 12 + 1 - 1 + n) with (o mod 12 + n) by lia.
      pose proof (Z.div_mod o 12 ltac:(lia)).
      assert (Hq : o / 12 + (o mod 12 + n) / 12 = (o + n) / 12).
      { replace (o + n) with (o / 12 * 12 + (o mod 12 + n)) by lia.
        now rewrite Z.div_add_l by lia. }
      rewrite Hq.
      pose proof (Z.div_mod (o + n) 12 ltac:(lia)).
      pose proof (Z.mod_pos_bound (o + n) 12 ltac:(lia)). lia. }
    destruct Hex as [d' Hd']. congruence.
Qed.



(** ** The list [months_between] returns *)

Lemma dt_leb_month_of_ordinal (c : Z) (e : dt.date) :
  1 <= dt.month e <= 12 -> 1 <= dt.day e ->
  dt.leb (month_of_ordinal c) e = (c <=? ordinal e).
Proof.
  intros Hm Hd. unfold dt.leb, dt.ltb, dt.eqb, month_of_ordinal, ordinal.
  cbn [dt.year dt.month dt.day].
  pose proof (Z.div_mod c 12 ltac:(lia)).
  pose proof (Z.mod_pos_bound c 12 ltac:(lia)).
  apply Bool.eq_iff_eq_true.
  rewrite ?Bool.orb_true_iff, ?Bool.andb_true_iff, ?Z.ltb_lt, ?Z.eqb_eq, ?Z.leb_le.
  lia.
Qed.

Lemma months_loop_spec (fuel : nat) :
  forall c e out,
  1 <= dt.month e <= 12 -> 1 <= dt.day e ->
  12 <= c -> ordinal e < ordinal (dt.mk 9999 12 1) ->
  ordinal e - c + 1 <= Z.of_nat fuel ->
  months_loop fuel (month_of_ordinal c) e out
  = Some (Ok (out ++ map (fun k => month_to_str (month_of_ordinal (c + Z.of_nat k)))
                         (seq 0 (Z.to_nat (ordinal e - c + 1))))%list).
Proof.
  induction fuel as [|fuel IH]; intros c e out Hm Hd Hc He Hf.
  - cbn [months_loop]. rewrite dt_leb_month_of_ordinal by assumption.
    destruct (Z.leb_spec c (ordinal e)) as [L|L]; [lia|].
    replace (Z.to_nat (ordinal e - c + 1)) with 0%nat by lia.
    cbn [seq map]. now rewrite app_nil_r.
  - cbn [months_loop]. rewrite dt_leb_month_of_ordinal by assumption.
    destruct (Z.leb_spec c (ordinal e)) as [L|L].
    + rewrite add_months_month_of_ordinal by (change (ordinal (dt.mk 9999 12 1)) with 119999 in He; lia).
      rewrite IH by (try assumption; lia).
      replace (Z.to_nat (ordinal e - c + 1))
        with (S (Z.to_nat (ordinal e - (c + 1) + 1))) by lia.
      cbn [seq map]. rewrite <- seq_shift, map_map, <- app_assoc.
      cbn [app]. rewrite Z.add_0_r. do 4 f_equal.
      apply map_ext. intros k. do 2 f_equal. lia.
    + replace (Z.to_nat (ordinal e - c + 1)) with 0%nat by lia.
      cbn [seq map]. now rewrite app_nil_r.
Qed.

Lemma months_between_months_to_fetch (s e : dt.date) :
  1 <= dt.year s -> 1 <= dt.month s ->
  1 <= dt.month e <= 12 -> 1 <= dt.day e ->
  ordinal s < ordinal (dt.mk 9999 12 1) -> ordinal e < ordinal (dt.mk 9999 12 1) ->
  months_between (Some s) e
  = Ok (map (fun k => month_to_str (month_of_ordinal (ordinal s + 1 + Z.of_nat k)))
          (seq 0 (Z.to_nat (ordinal e - ordinal s)))).
Proof.
  intros Hy Hm Hme Hde Hs He.
  assert (Hcur : add_months s 1 = Ok (month_of_ordinal (ordinal s + 1))).
  { change (ordinal (dt.mk 9999 12 1)) with 119999 in Hs.
    assert (Hex : exists d', add_months s 1 = Ok d').
    { apply add_months_in_range.
      pose proof (Z.div_mod (dt.month s - 1 + 1) 12 ltac:(lia)).
      pose proof (Z.mod_pos_bound (dt.month s - 1 + 1) 12 ltac:(lia)).
      unfold ordinal in Hs. lia. }
    destruct Hex as [d' Hd']. rewrite Hd'. f_equal.
    now apply add_months_ordinal. }
  pose proof (months_between_finishes (Some s) e _ Hme Hcur) as F.
  rewrite ordinal_month_of_ordinal in F.
  rewrite months_loop_spec in F; try assumption; try lia.
  - injection F as <-. cbn [app].
    now replace (ordinal e - (ordinal s + 1) + 1) with (ordinal e - ordinal s) by lia.
  - unfold ordinal in *. lia.
Qed.

(** X2: for valid dates [s] and [e] before December 9999,
    [months_between (Some s) e] returns the tokens of the months
    strictly after the month of [s] up to and including the month of
    [e], one each in calendar order: [ordinal e - ordinal s] tokens,
    none when the month of [e] is not after that of [s]. *)
Theorem months_between_spec (s e : dt.date) :
  dt.valid s -> dt.valid e ->
  ordinal s < ordinal (dt.mk 9999 12 1) -> ordinal e < ordinal (dt.mk 9999 12 1) ->
  months_between (Some s) e
  = Ok (map (fun k => month_to_str (month_of_ordinal (ordinal s + 1 + Z.of_nat k)))
          (seq 0 (Z.to_nat (ordinal e - ordinal s)))).
Proof.
  intros (Hy & Hm & _) (_ & Hme & Hde & _) Hs He. unfold dt.MINYEAR in Hy.
  apply months_between_months_to_fetch; (assumption || lia).
Qed.

Lemma months_between_spec_witness :
  months_between (Some (dt.mk 2024 11 1)) (dt.mk 2025 2 17)
  = Ok ["2024M12"; "2025M01"; "2025M02"].
Proof.
  apply (months_between_spec (dt.mk 2024 11 1) (dt.mk 2025 2 17)).
  - repeat split; vm_compute; discriminate.
  - repeat split; vm_compute; discriminate.
  - reflexivity.
  - reflexivity.
Defined.

(** X3: without a start, [months_between None e] returns the token
    of the month of [e] alone, for every valid date [e] before
    December 9999, whatever its day. *)
Theorem months_between_no_start (e : dt.date) :
  dt.valid e -> ordinal e < ordinal (dt.mk 9999 12 1) ->
  months_between None e = Ok [month_to_str e].
Proof.
  intros (Hy & Hm & Hd & _) He. unfold dt.MINYEAR in Hy.
  change (ordinal (dt.mk 9999 12 1)) with 119999 in He.
  pose proof (months_between_finishes None e e Hm eq_refl) as F.
  replace (Z.to_nat (ordinal e - ordinal e + 1)) with 1%nat in F by lia.
  cbn [months_loop] in F.
  assert (L : dt.leb e e = true) by (apply dt_leb_spec; now right).
  rewrite L in F.
  assert (Hex : exists d', add_months e 1 = Ok d').
  { apply add_months_in_range.
    pose proof (Z.div_mod (dt.month e - 1 + 1) 12 ltac:(lia)).
    pose proof (Z.mod_pos_bound (dt.month e - 1 + 1) 12 ltac:(lia)).
    unfold ordinal in He. lia. }
  destruct Hex as [d' Hd']. rewrite Hd' in F.
  apply add_months_ordinal in Hd'. subst d'.
  rewrite dt_leb_month_of_ordinal in F by assumption.
  destruct (Z.leb_spec (ordinal e + 1) (ordinal e)) as [L'|L']; [lia|].
  now injection F as <-.
Qed.

Lemma months_between_no_start_witness :
  months_between None (dt.mk 2025 2 17) = Ok [month_to_str (dt.mk 2025 2 17)].
Proof.
  apply (months_between_no_start (dt.mk 2025 2 17)).
  - repeat split; vm_compute; discriminate.
  - reflexivity.
Defined.

(** ** The months [main] asks for *)

Lemma month_of_ordinal_first (o : Z) :
  1 <= dt.month (month_of_ordinal o) <= 12 /\ dt.day (month_of_ordinal o) = 1.
Proof.
  unfold month_of_ordinal. cbn [dt.month dt.day].
  pose proof (Z.mod_pos_bound o 12 ltac:(lia)). lia.
Qed.

(** The month before the one [today] is in. *)
Lemma main_end (today : dt.date) :
  dt.valid today -> ordinal dt.min < ordinal today ->
  (first_of_this <- dt.new (dt.year today) (dt.month today) 1 ;;
   add_months first_of_this (-1))
  = Ok (month_of_ordinal (ordinal today - 1)).
Proof.
  intros (Hy & Hm & _) Hmin. unfold dt.MINYEAR, dt.MAXYEAR in Hy.
  change (ordinal dt.min) with 12 in Hmin.
  rewrite dt_new_first by assumption. cbn [bind].
  assert (Hex : exists d', add_months (dt.mk (dt.year today) (dt.month today) 1) (-1) = Ok d').
  { apply add_months_in_range. cbn [dt.year dt.month].
    pose proof (Z.div_mod (dt.month today - 1 + -1) 12 ltac:(lia)).
    pose proof (Z.mod_pos_bound (dt.month today - 1 + -1) 12 ltac:(lia)).
    unfold ordinal in Hmin. lia. }
  destruct Hex as [d' Hd']. rewrite Hd'. f_equal.
  apply add_months_ordinal in Hd'. subst d'. f_equal.
Qed.

Lemma main_eq (f : file) (today : dt.date) (api : list string -> http) :
  dt.valid today -> ordinal dt.min < ordinal today ->
  main f today api
  = match loaded_latest f with
    | None => Ok (0, None)
    | Some latest =>
        if ordinal today - 1 <=? ordinal latest then Ok (0, None)
        else
          new_rows <- fetch_scb api (months_to_fetch latest today) ;;
          merge_and_persist (loaded_rows f) (loaded_seen f) new_rows
    end.
Proof.
  intros Hv Hmin. pose proof (main_end today Hv Hmin) as E.
  unfold main, loaded_latest, loaded_rows, loaded_seen.
  destruct f as [rows0|].
  - pose proof (loaded_latest_first rows0) as Hl. unfold loaded_latest in Hl.
    destruct (read_existing (Some rows0)) as [[rows seen] latest]. cbn [fst snd] in *.
    destruct (dt.new _ _ _) as [first_of_this|e]; [|discriminate]. cbn [bind] in *.
    rewrite E. cbn [bind].
    destruct latest as [latest|]; [|reflexivity].
    destruct (Hl latest eq_refl) as (Hy & Hm & Hd).
    rewrite dt_leb_month_of_ordinal by lia.
    destruct (Z.leb_spec (ordinal today - 1) (ordinal latest)) as [L|L]; [reflexivity|].
    destruct Hv as (Hty & Htm & _). unfold dt.MINYEAR, dt.MAXYEAR in Hty.
    pose proof (month_of_ordinal_first (ordinal today - 1)) as (Hem & Hed).
    rewrite months_between_months_to_fetch;
      rewrite ?ordinal_month_of_ordinal;
      try (change (ordinal (dt.mk 9999 12 1)) with 119999; unfold ordinal in *; lia);
      try lia.
    reflexivity.
  - cbn [read_existing fst snd].
    destruct (dt.new _ _ _) as [first_of_this|e]; [|discriminate]. cbn [bind] in *.
    now rewrite E.
Qed.

(** X4: when the file is missing or holds no complete month, [main]
    returns 0 without asking the server and without writing, on every
    valid day after January of year 1; the file stays as it was. *)
Theorem main_no_baseline (f : file) (today : dt.date) (api : list string -> http) :
  dt.valid today -> ordinal dt.min < ordinal today ->
  loaded_latest f = None ->
  main f today api = Ok (0, None) /\ run f today api = f.
Proof.
  intros Hv Hmin Hl.
  assert (M : main f today api = Ok (0, None)) by now rewrite main_eq, Hl.
  split; [exact M|]. unfold run. now rewrite M.
Qed.

Lemma main_no_baseline_witness :
  main None day_2025_03_15 (fun _ => NoResponse) = Ok (0, None)
  /\ run None day_2025_03_15 (fun _ => NoResponse) = None.
Proof.
  apply (main_no_baseline None day_2025_03_15 (fun _ => NoResponse)).
  - repeat split; vm_compute; discriminate.
  - reflexivity.
  - reflexivity.
Defined.

(** X5: when the latest complete month of the file is the month
    before the one [today] is in, or a later one, [main] returns 0
    without asking the server and without writing. *)
Theorem main_up_to_date (f : file) (today latest : dt.date) (api : list string -> http) :
  dt.valid today -> ordinal dt.min < ordinal today ->
  loaded_latest f = Some latest ->
  ordinal today - 1 <= ordinal latest ->
  main f today api = Ok (0, None) /\ run f today api = f.
Proof.
  intros Hv Hmin Hl Hle.
  assert (M : main f today api = Ok (0, None)).
  { rewrite main_eq, Hl by assumption.
    now destruct (Z.leb_spec (ordinal today - 1) (ordinal latest)) as [L|L]; [|lia]. }
  split; [exact M|]. unfold run. now rewrite M.
Qed.

(** X6: when the latest complete month of the file is before the
    month before the one [today] is in, [main] asks the server once,
    for the months after the latest complete month up to the month
    before today's, in calendar order and at least one, and hands
    the rows of the answer to the merge. *)
Theorem main_requests (f : file) (today latest : dt.date) (api : list string -> http) :
  dt.valid today -> ordinal dt.min < ordinal today ->
  loaded_latest f = Some latest ->
  ordinal latest < ordinal today - 1 ->
  main f today api
  = (new_rows <- fetch_scb api (months_to_fetch latest today) ;;
     merge_and_persist (loaded_rows f) (loaded_seen f) new_rows)
  /\ Z.of_nat (List.length (months_to_fetch latest today)) = ordinal today - 1 - ordinal latest.
Proof.
  intros Hv Hmin Hl Hlt. split.
  - rewrite main_eq, Hl by assumption.
    now destruct (Z.leb_spec (ordinal today - 1) (ordinal latest)) as [L|L]; [lia|].
  - unfold months_to_fetch. rewrite length_map, length_seq. lia.
Qed.

(** X7: when the server answers the request of [main] with status
    400, [main] returns 0 and writes nothing. *)
Theorem main_bad_request (f : file) (today latest : dt.date) (api : list string -> http)
    (content : string) :
  dt.valid today -> ordinal dt.min < ordinal today ->
  loaded_latest f = Some latest ->
  api (months_to_fetch latest today) = Response 400 content ->
  main f today api = Ok (0, None) /\ run f today api = f.
Proof.
  intros Hv Hmin Hl Ha.
  assert (M : main f today api = Ok (0, None)).
  { rewrite main_eq, Hl by assumption.
    destruct (Z.leb_spec (ordinal today - 1) (ordinal latest)) as [L|L]; [reflexivity|].
    unfold fetch_scb. rewrite Ha.
    destruct (months_to_fetch latest today); reflexivity. }
  split; [exact M|]. unfold run. now rewrite M.
Qed.

Lemma main_up_to_date_witness :
  main file_2025M01 (dt.mk 2025 2 9) api_two_values = Ok (0, None)
  /\ run file_2025M01 (dt.mk 2025 2 9) api_two_values = file_2025M01.
Proof.
  apply (main_up_to_date file_2025M01 (dt.mk 2025 2 9) (dt.mk 2025 1 1) api_two_values).
  - repeat split; vm_compute; discriminate.
  - reflexivity.
  - vm_compute. reflexivity.
  - vm_compute. discriminate.
Defined.

Lemma main_requests_witness :
  main file_2025M01 day_2025_03_15 api_two_values
  = (new_rows <- fetch_scb api_two_values ["2025M02"] ;;
     merge_and_persist (loaded_rows file_2025M01) (loaded_seen file_2025M01) new_rows)
  /\ Z.of_nat (List.length (months_to_fetch (dt.mk 2025 1 1) day_2025_03_15)) = 1.
Proof.
  apply (main_requests file_2025M01 day_2025_03_15 (dt.mk 2025 1 1) api_two_values).
  - repeat split; vm_compute; discriminate.
  - reflexivity.
  - vm_compute. reflexivity.
  - reflexivity.
Defined.

Lemma main_bad_request_witness :
  main file_2025M01 day_2025_03_15 (fun _ => Response 400 "no such period") = Ok (0, None)
  /\ run file_2025M01 day_2025_03_15 (fun _ => Response 400 "no such period") = file_2025M01.
Proof.
  apply (main_bad_request file_2025M01 day_2025_03_15 (dt.mk 2025 1 1)
           (fun _ => Response 400 "no such period") "no such period").
  - repeat split; vm_compute; discriminate.
  - reflexivity.
  - vm_compute. reflexivity.
  - reflexivity.
Defined.

(** ** What [fetch_scb] raises and returns *)

Lemma parse_table_cases (text : string) (months : list string) :
  match data_block text with
  | None => parse_table text months = Raise RuntimeError
  | Some block =>
      exists numbers,
        mapM int (re.findall INT_RE block) = Ok numbers
        /\ List.length numbers = List.length (re.findall INT_RE block)
        /\ parse_table text months
           = Ok (map row_of (combine (layout (response_codes text) months) numbers))
  end.
Proof.
  unfold data_block, parse_table.
  destruct (re.search DATA_RE text) as [m_data|]; cbn [option_map]; [|reflexivity].
  destruct (numbers_total (re.group m_data 1)) as (numbers & Hn & Hlen).
  exists numbers. rewrite Hn. cbn [bind]. now rewrite build_rows_eq.
Qed.


Lemma layout_keys_NoDup (reg_codes months : list string) :
  NoDup (map region_name reg_codes) -> NoDup months ->
  NoDup (map (fun p => (region_name (fst p), snd p)) (layout reg_codes months)).
Proof.
  intros Hc Hm. unfold layout.
  induction reg_codes as [|rc l IH]; cbn [flat_map map]; [constructor|].
  cbn [map] in Hc. apply NoDup_cons_iff in Hc as [Hrc Hl].
  rewrite map_app, map_map. cbn [fst snd]. apply NoDup_app.
  - clear -Hm. induction Hm as [|mo months Hn _ IHm]; cbn [map]; constructor; [|exact IHm].
    intros H. apply in_map_iff in H as (mo' & [= ->] & H). contradiction.
  - now apply IH.
  - intros a Ha Hb. apply in_map_iff in Ha as (mo & <- & _).
    apply in_map_iff in Hb as ([rc' mo'] & [= E _] & Hb). cbn [fst] in E.
    apply in_flat_map in Hb as (rc'' & Hin & Hb).
    apply in_map_iff in Hb as (mo'' & [= -> _] & _).
    apply Hrc. rewrite <- E. now apply in_map.
Qed.

Lemma NoDup_map_combine {A B C : Type} (g : A -> C) (l : list A) :
  NoDup (map g l) -> forall xs : list B, NoDup (map g (map fst (combine l xs))).
Proof.
  induction l as [|a l IH]; intros H xs; [constructor|].
  cbn [map] in H. apply NoDup_cons_iff in H as [Ha Hl].
  destruct xs as [|x xs]; cbn [combine map fst]; constructor; [|now apply IH].
  intros Hin. apply in_map_iff in Hin as (a' & E & Hin).
  apply in_map_iff in Hin as ([a'' x'] & <- & Hin). cbn [fst] in E.
  apply in_combine_l in Hin. apply Ha. rewrite <- E. now apply in_map.
Qed.

Lemma response_codes_names (text : string) :
  NoDup (map region_name (response_codes text))
  /\ (List.length (response_codes text) <= List.length REGION_CODES)%nat.
Proof.
  destruct (response_codes_cases text) as [->|[rc ->]].
  - split; [|reflexivity]. vm_compute.
    constructor; [|constructor; [intros []|constructor]].
    intros [H|[]]. discriminate.
  - split; [|cbn; lia]. cbn [map]. constructor; [intros []|constructor].
Qed.

Lemma laid_out_rows (reg_codes months : list string) (numbers : list Z) :
  NoDup (map region_name reg_codes) -> NoDup months ->
  distinct_keys (map row_of (combine (layout reg_codes months) numbers))
  /\ (forall r, In r (map row_of (combine (layout reg_codes months) numbers)) ->
      In (month r) months)
  /\ (List.length (map row_of (combine (layout reg_codes months) numbers))
      <= List.length reg_codes * List.length months)%nat.
Proof.
  intros Hc Hm. split; [|split].
  - unfold distinct_keys. rewrite map_map.
    pose proof (NoDup_map_combine _ _ (layout_keys_NoDup _ _ Hc Hm) numbers) as N.
    rewrite map_map in N. exact N.
  - intros r Hr. apply in_map_iff in Hr as ([[rc mo] v] & <- & Hr).
    apply in_combine_l in Hr. unfold layout in Hr.
    apply in_flat_map in Hr as (rc' & _ & Hr).
    apply in_map_iff in Hr as (mo' & [= _ ->] & Hr). exact Hr.
  - rewrite length_map, length_combine, length_layout. lia.
Qed.

(** X9: whatever the server answers, the rows [fetch_scb] returns
    for a list of distinct months have pairwise distinct (region,
    month) pairs, carry only requested months, and are at most
    (number of tracked regions) x (number of months) many. *)
Theorem fetch_scb_distinct (api : list string -> http) (months : list string)
    (rows : list row) :
  NoDup months -> fetch_scb api months = Ok rows ->
  distinct_keys rows
  /\ (forall r, In r rows -> In (month r) months)
  /\ (List.length rows <= List.length REGION_CODES * List.length months)%nat.
Proof.
  intros Hm H.
  assert (Hnil : distinct_keys [] /\ (forall r : row, In r [] -> In (month r) months)
                 /\ (List.length (@nil row) <= List.length REGION_CODES * List.length months)%nat).
  { split; [constructor|split; [intros r []|cbn; lia]]. }
  unfold fetch_scb in H. destruct months as [|mo months]; [now injection H as <-|].
  set (ms := mo :: months) in *.
  destruct (api ms) as [status_code content|]; [|discriminate].
  destruct ((400 <=? status_code) && (status_code <? 600)).
  - destruct (status_code =? 400); [now injection H as <-|discriminate].
  - pose proof (parse_table_cases content ms) as P.
    destruct (data_block content) as [block|]; [|congruence].
    destruct P as (numbers & _ & _ & P). rewrite P in H. injection H as <-.
    destruct (response_codes_names content) as (Hc & Hlen).
    destruct (laid_out_rows (response_codes content) ms numbers Hc Hm) as (D & M & L).
    split; [exact D|split; [exact M|]]. nia.
Qed.

Lemma fetch_scb_distinct_witness :
  distinct_keys [mkRow Norrkoping "2025M02" 144100; mkRow Jonkoping "2025M02" 145100]
  /\ (forall r, In r [mkRow Norrkoping "2025M02" 144100; mkRow Jonkoping "2025M02" 145100] ->
      In (month r) ["2025M02"])
  /\ (2 <= List.length REGION_CODES * 1)%nat.
Proof.
  apply (fetch_scb_distinct api_two_values ["2025M02"]).
  - constructor; [intros []|constructor].
  - reflexivity.
Defined.



(** ** The merge loop *)

(** X11: the merge keeps the rows it was given, in their order, in
    front of the rows it appends; the count it returns is the number
    of rows appended, at most the number of fetched rows; and when
    the index held exactly the pairs of the rows before, it holds
    exactly the pairs of the rows after, and rows with pairwise
    distinct pairs stay so. *)
Theorem merge_invariant (rows : list row) (seen : set key) (new_rows : list row)
    (rows' : list row) (seen' : set key) (added : Z) :
  (forall k, set_In k seen <-> In k (map key_of rows)) ->
  merge rows seen new_rows = (rows', seen', added) ->
  (exists fresh,
     rows' = (rows ++ fresh)%list /\ added = Z.of_nat (List.length fresh)
     /\ (List.length fresh <= List.length new_rows)%nat)
  /\ (forall k, set_In k seen' <-> In k (map key_of rows'))
  /\ (distinct_keys rows -> distinct_keys rows').
Proof.
  intros Hidx H. unfold merge in H.
  apply merge_from in H as (fresh & -> & -> & Hfresh & Hnd & Hseen & _).
  split; [|split].
  - exists fresh. split; [reflexivity|split; [lia|]].
    apply NoDup_incl_length.
    + eapply NoDup_map_inv, Hnd.
    + intros r Hr. now apply Hfresh.
  - intros k. rewrite Hseen, Hidx, map_app, in_app_iff. reflexivity.
  - intros Hd. apply distinct_keys_app; [assumption|assumption|].
    intros r Hr Hin. apply Hfresh in Hr as [_ Hr]. apply Hr, Hidx, Hin.
Qed.

Lemma merge_invariant_witness :
  (exists fresh,
     [mkRow "A" "2025M01" 1; mkRow "B" "2025M01" 2; mkRow "B" "2025M02" 4]
     = ([mkRow "A" "2025M01" 1; mkRow "B" "2025M01" 2] ++ fresh)%list
     /\ 1 = Z.of_nat (List.length fresh)
     /\ (List.length fresh
         <= List.length [mkRow "A" "2025M01" 3; mkRow "B" "2025M02" 4; mkRow "B" "2025M02" 5])%nat)
  /\ (forall k, set_In k [("A", "2025M01"); ("B", "2025M01"); ("B", "2025M02")]
                <-> In k (map key_of [mkRow "A" "2025M01" 1; mkRow "B" "2025M01" 2;
                                      mkRow "B" "2025M02" 4]))
  /\ (distinct_keys [mkRow "A" "2025M01" 1; mkRow "B" "2025M01" 2] ->
      distinct_keys [mkRow "A" "2025M01" 1; mkRow "B" "2025M01" 2; mkRow "B" "2025M02" 4]).
Proof.
  apply (merge_invariant [mkRow "A" "2025M01" 1; mkRow "B" "2025M01" 2]
           [("A", "2025M01"); ("B", "2025M01")]
           [mkRow "A" "2025M01" 3; mkRow "B" "2025M02" 4; mkRow "B" "2025M02" 5]).
  - intros k. reflexivity.
  - reflexivity.
Defined.

(** X12: merging the same fetched rows a second time appends
    nothing: every pair is in the index after the first merge, the
    count is 0, and [merge_and_persist] returns 0 without writing. *)
Theorem merge_twice (rows : list row) (seen : set key) (new_rows : list row)
    (rows' : list row) (seen' : set key) (added : Z) :
  merge rows seen new_rows = (rows', seen', added) ->
  merge rows' seen' new_rows = (rows', seen', 0)
  /\ merge_and_persist rows' seen' new_rows = Ok (0, None).
Proof.
  intros H. unfold merge in H.
  apply merge_from in H as (fresh & _ & _ & _ & _ & _ & Hall).
  pose proof (merge_all_seen rows' seen' new_rows Hall) as M.
  split; [exact M|]. eapply merge_and_persist_not_added, M.
Qed.

Lemma merge_twice_witness :
  merge [mkRow "A" "2025M01" 1; mkRow "B" "2025M02" 4]
    [("A", "2025M01"); ("B", "2025M02")]
    [mkRow "A" "2025M01" 3; mkRow "B" "2025M02" 4]
  = ([mkRow "A" "2025M01" 1; mkRow "B" "2025M02" 4], [("A", "2025M01"); ("B", "2025M02")], 0)
  /\ merge_and_persist [mkRow "A" "2025M01" 1; mkRow "B" "2025M02" 4]
       [("A", "2025M01"); ("B", "2025M02")]
       [mkRow "A" "2025M01" 3; mkRow "B" "2025M02" 4]
     = Ok (0, None).
Proof.
  apply (merge_twice [mkRow "A" "2025M01" 1] [("A", "2025M01")]
           [mkRow "A" "2025M01" 3; mkRow "B" "2025M02" 4]
           [mkRow "A" "2025M01" 1; mkRow "B" "2025M02" 4]
           [("A", "2025M01"); ("B", "2025M02")] 1).
  reflexivity.
Defined.

(** ** When the sort returns *)

Lemma parse_month_raises (s : string) (e : exn) : parse_month s = Raise e -> e = ValueError.
Proof.
  rewrite parse_month_eq. destruct (month_parts s) as [[y mm]|].
  - apply dt_new_raises.
  - now intros [= <-].
Qed.

Lemma mapM_raises {A B : Type} (f : A -> result B) (l : list A) (e : exn) :
  mapM f l = Raise e -> exists x, In x l /\ f x = Raise e.
Proof.
  induction l as [|x l IH]; cbn; [discriminate|].
  destruct (f x) as [y|e'] eqn:E; cbn [bind].
  - destruct (mapM f l) as [ys|e'']; cbn [bind]; [discriminate|].
    intros [= <-]. destruct (IH eq_refl) as (x' & Hin & Hx'). eauto.
  - intros [= <-]. eauto.
Qed.

Lemma mapM_returns {A B : Type} (f : A -> result B) (l : list A) (ys : list B) :
  mapM f l = Ok ys -> forall x, In x l -> exists y, f x = Ok y.
Proof.
  revert ys. induction l as [|x l IH]; cbn; intros ys H x' Hin; [contradiction|].
  destruct (f x) as [y|] eqn:E; [|discriminate]. cbn [bind] in H.
  destruct (mapM f l) as [ys'|]; [|discriminate].
  destruct Hin as [<-|Hin]; [eauto|]. eapply IH; [reflexivity|exact Hin].
Qed.

(** X13: the sort of [main] returns a permutation of its rows
    unless some row has a month token that [MONTH_RE] matches and
    [parse_month] refuses (year 0000, month 00 or above 12); then it
    raises [ValueError].  A token that [MONTH_RE] does not match
    never makes it raise. *)
Theorem sort_rows_returns (rows : list row) :
  match sort_rows rows with
  | Ok sorted =>
      Permutation sorted rows
      /\ forall r, In r rows ->
           re.match_ MONTH_RE (month r) = None \/ exists d, parse_month (month r) = Ok d
  | Raise e =>
      e = ValueError
      /\ exists r, In r rows /\ re.match_ MONTH_RE (month r) <> None
                   /\ parse_month (month r) = Raise ValueError
  end.
Proof.
  destruct (sort_rows rows) as [sorted|e] eqn:S.
  - split; [now apply sort_rows_spec|].
    intros r Hr. unfold sort_rows in S.
    destruct (mapM sort_key rows) as [keys|] eqn:E; [|discriminate].
    destruct (mapM_returns _ _ _ E r Hr) as (k & Hk). unfold sort_key in Hk.
    destruct (re.match_ MONTH_RE (month r)); [right|now left].
    destruct (parse_month (month r)) as [d|]; [eauto|discriminate].
  - unfold sort_rows in S.
    destruct (mapM sort_key rows) as [keys|e'] eqn:E; [discriminate|].
    cbn [bind] in S. injection S as <-.
    apply mapM_raises in E as (r & Hr & Hk). unfold sort_key in Hk.
    destruct (re.match_ MONTH_RE (month r)) as [m|] eqn:M; [|discriminate].
    destruct (parse_month (month r)) as [d|e''] eqn:P; [discriminate|].
    cbn [bind] in Hk. injection Hk as <-.
    pose proof (parse_month_raises _ _ P) as ->.
    split; [reflexivity|]. exists r. repeat split; [exact Hr|congruence|exact P].
Qed.

Lemma insert_keyed_last (x : (dt.date * string) * row) (l : list ((dt.date * string) * row)) :
  Forall (fun y => keyed_le y x) l -> insert_keyed x l = (l ++ [x])%list.
Proof.
  induction 1 as [|y l Hy _ IH]; cbn [insert_keyed app]; [reflexivity|].
  destruct (sort_key_ltb (fst x) (fst y)) eqn:E.
  - apply sort_key_ltb_asym in E. contradiction.
  - now rewrite IH.
Qed.

Lemma StronglySorted_app_le {A : Type} (R : A -> A -> Prop) (acc : list A) (x : A) (l : list A) :
  StronglySorted R (acc ++ x :: l) -> Forall (fun y => R y x) acc.
Proof.
  induction acc as [|a acc IH]; cbn [app]; intros H; [constructor|].
  apply StronglySorted_inv in H as [H Ha]. constructor; [|now apply IH].
  rewrite Forall_forall in Ha. apply Ha, in_or_app. right. now left.
Qed.

Lemma sort_keyed_sorted (l : list ((dt.date * string) * row)) :
  forall acc,
  StronglySorted keyed_le (acc ++ l) ->
  fold_left (fun sorted x => insert_keyed x sorted) l acc = (acc ++ l)%list.
Proof.
  induction l as [|x l IH]; intros acc H; cbn [fold_left]; [now rewrite app_nil_r|].
  rewrite insert_keyed_last by (eapply StronglySorted_app_le, H).
  rewrite IH; rewrite <- app_assoc; [reflexivity|exact H].
Qed.

Lemma combine_keys_sorted (keys : list (dt.date * string)) :
  forall rows : list row,
  List.length keys = List.length rows ->
  StronglySorted month_region_le keys -> StronglySorted keyed_le (combine keys rows).
Proof.
  induction keys as [|k keys IH]; intros [|r rows] Hlen H; cbn [combine];
    try constructor; try discriminate.
  - apply IH; [now injection Hlen|]. now apply StronglySorted_inv in H.
  - apply StronglySorted_inv in H as [_ H]. rewrite Forall_forall in *.
    intros [k' r'] Hin. apply in_combine_l in Hin. unfold keyed_le. cbn [fst].
    now apply H.
Qed.

Lemma mapM_length {A B : Type} (f : A -> result B) (l : list A) :
  forall ys, mapM f l = Ok ys -> List.length ys = List.length l.
Proof.
  induction l as [|x l IH]; cbn; intros ys H.
  - now injection H as <-.
  - destruct (f x) as [y|]; [|discriminate]. cbn [bind] in H.
    destruct (mapM f l) as [ys'|]; [|discriminate]. cbn [bind] in H.
    injection H as <-. cbn. now rewrite (IH ys').
Qed.

(** X14: sorting rows that are already in the order of the file (by
    decoded month, then by region name) returns them unchanged, rows
    of equal key included; so the list [sort_rows] returns is a fixed
    point of [sort_rows]. *)
Theorem sort_rows_sorted (rows : list row) :
  sorted_rows rows -> sort_rows rows = Ok rows.
Proof.
  intros (keys & Hk & Hs). unfold sort_rows. rewrite Hk. cbn [bind]. f_equal.
  unfold sort_keyed. rewrite sort_keyed_sorted.
  - cbn [app]. now destruct (mapM_combine _ _ _ Hk).
  - cbn [app]. apply combine_keys_sorted; [|exact Hs]. eapply mapM_length, Hk.
Qed.

Lemma sort_rows_sorted_witness :
  sort_rows [mkRow Jonkoping "2025M01" 145000; mkRow Jonkoping "2025M01" 7;
             mkRow Norrkoping "2025M01" 144000; mkRow Jonkoping "2025M02" 145100]
  = Ok [mkRow Jonkoping "2025M01" 145000; mkRow Jonkoping "2025M01" 7;
        mkRow Norrkoping "2025M01" 144000; mkRow Jonkoping "2025M02" 145100].
Proof.
  apply (sort_rows_sorted
           [mkRow Jonkoping "2025M01" 145000; mkRow Jonkoping "2025M01" 7;
            mkRow Norrkoping "2025M01" 144000; mkRow Jonkoping "2025M02" 145100]).
  eexists. split; [reflexivity|]. ascending.
Defined.

(** ** Tokens of four-digit years *)

Lemma parse_month_written (d : dt.date) :
  four_digit_year d -> parse_month (month_to_str d) = Ok d.
Proof.
  intros H.
  destruct (four_digit_year_digits d H)
    as (a & b & c & dd & e & f & (Ha & Hb & Hc & Hd & He & Hf) & Ey & Em & ->).
  destruct H as (Hy & Hm & Hday).
  unfold token_of_digits. rewrite parse_month_token.
  rewrite !is_digit_char by lia. cbn [andb Ascii.eqb Bool.eqb at_end int_digits].
  rewrite !digit_val_char by lia.
  replace (10 * (10 * (10 * (10 * 0 + a) + b) + c) + dd) with (dt.year d) by lia.
  replace (10 * (10 * 0 + e) + f) with (dt.month d) by lia.
  rewrite dt_new_first by lia.
  destruct d as [y m day]. cbn [dt.year dt.month dt.day] in *. now subst day.
Qed.

(** X15: for every valid date from year 1000 on, [parse_month]
    reads the token [month_to_str] writes, and returns the first day
    of the month of the date. *)
Theorem parse_month_month_to_str (d : dt.date) :
  dt.valid d -> 1000 <= dt.year d ->
  parse_month (month_to_str d) = Ok (dt.mk (dt.year d) (dt.month d) 1).
Proof.
  intros (Hy & Hm & _) H1000. unfold dt.MINYEAR, dt.MAXYEAR in Hy.
  change (month_to_str d) with (month_to_str (dt.mk (dt.year d) (dt.month d) 1)).
  apply parse_month_written. repeat split; cbn [dt.year dt.month dt.day]; lia.
Qed.

Lemma parse_month_month_to_str_witness :
  parse_month (month_to_str (dt.mk 2024 2 29)) = Ok (dt.mk 2024 2 1).
Proof.
  apply (parse_month_month_to_str (dt.mk 2024 2 29)).
  - repeat split; vm_compute; discriminate.
  - vm_compute. discriminate.
Defined.



(** X17: on first-of-month dates with a four-digit year the order
    of the tokens as strings is the order of the dates, and distinct
    dates have distinct tokens; this is the comparison by which
    [read_existing] keeps the rows up to the latest complete month. *)
Theorem month_to_str_order (d1 d2 : dt.date) :
  four_digit_year d1 -> four_digit_year d2 ->
  String.leb (month_to_str d1) (month_to_str d2) = dt.leb d1 d2
  /\ (month_to_str d1 = month_to_str d2 -> d1 = d2).
Proof.
  intros H1 H2. split; [now apply month_to_str_leb|].
  intros E. apply dt_leb_antisym.
  - rewrite <- (month_to_str_leb d1 d2 H1 H2), E.
    rewrite (month_to_str_leb d2 d2 H2 H2). apply dt_leb_refl.
  - rewrite <- (month_to_str_leb d2 d1 H2 H1), E.
    rewrite (month_to_str_leb d2 d2 H2 H2). apply dt_leb_refl.
Qed.

Lemma month_to_str_order_witness :
  String.leb (month_to_str (dt.mk 2024 12 1)) (month_to_str (dt.mk 2025 1 1))
  = dt.leb (dt.mk 2024 12 1) (dt.mk 2025 1 1)
  /\ (month_to_str (dt.mk 2024 12 1) = month_to_str (dt.mk 2025 1 1) ->
      dt.mk 2024 12 1 = dt.mk 2025 1 1).
Proof.
  apply (month_to_str_order (dt.mk 2024 12 1) (dt.mk 2025 1 1)).
  - repeat split; vm_compute; discriminate.
  - repeat split; vm_compute; discriminate.
Defined.

(** ** Loading *)

Lemma complete_month_perm (rows rows' : list row) (all_region_names : set string)
    (tok : string) :
  (forall r, In r rows <-> In r rows') ->
  complete_month rows all_region_names tok -> complete_month rows' all_region_names tok.
Proof.
  intros P [Hin Hreg]. split.
  - apply in_map_iff in Hin as (r & <- & Hr). apply in_map, P, Hr.
  - intros x. rewrite Hreg. split; intros (r & Hr & H); exists r; (split; [apply P, Hr|exact H]).
Qed.

(** X18: the latest complete month depends only on which rows there
    are, not on their order in the file nor on how often a row is
    repeated. *)
Theorem find_latest_complete_month_order (rows rows' : list row)
    (all_region_names : set string) :
  (forall r, In r rows <-> In r rows') ->
  find_latest_complete_month rows all_region_names
  = find_latest_complete_month rows' all_region_names.
Proof.
  intros P.
  apply (latest_complete_unique rows' all_region_names);
    [|apply find_latest_complete_month_spec].
  pose proof (find_latest_complete_month_spec rows all_region_names) as L.
  assert (Q : forall r, In r rows' <-> In r rows) by (intros r; symmetry; apply P).
  destruct (find_latest_complete_month rows all_region_names) as [d|]; cbn in *.
  - destruct L as [(tok & C & Hp) M]. split.
    + exists tok. split; [eapply complete_month_perm; eauto|exact Hp].
    + intros tok' d' C'. apply M. eapply complete_month_perm; eauto.
  - intros tok d' C'. apply L. eapply complete_month_perm; eauto.
Qed.

Lemma find_latest_complete_month_order_witness :
  find_latest_complete_month
    [mkRow Jonkoping "2025M01" 1; mkRow Norrkoping "2025M01" 2; mkRow Jonkoping "2025M02" 3]
    tracked_regions
  = find_latest_complete_month
      [mkRow Jonkoping "2025M02" 3; mkRow Norrkoping "2025M01" 2; mkRow Jonkoping "2025M01" 1;
       mkRow Norrkoping "2025M01" 2]
      tracked_regions.
Proof.
  apply (find_latest_complete_month_order
           [mkRow Jonkoping "2025M01" 1; mkRow Norrkoping "2025M01" 2;
            mkRow Jonkoping "2025M02" 3]).
  intros r. cbn [In]. tauto.
Defined.

(** X19: the index [read_existing] returns holds exactly the pairs
    of the rows it returns, and those rows are rows of the file in
    the order of the file; for a missing file both are empty. *)
Theorem read_existing_index (f : file) :
  (forall k, set_In k (loaded_seen f) <-> In k (map key_of (loaded_rows f)))
  /\ match f with
     | Some rows0 => exists keep, loaded_rows f = filter keep rows0
     | None => loaded_rows f = [] /\ loaded_seen f = []
     end.
Proof.
  destruct f as [rows0|].
  - destruct (read_existing_rows rows0) as (keep & Hr & Hs). split; [|eauto].
    intros k. rewrite Hs, Hr. apply set_of_In.
  - split; [intros k; reflexivity|split; reflexivity].
Qed.

(** ** What a run writes *)

Lemma loaded_seen_keys (f : file) (k : key) :
  set_In k (loaded_seen f) <-> In k (map key_of (loaded_rows f)).
Proof.
  destruct f as [rows0|]; [|reflexivity].
  destruct (read_existing_rows rows0) as (keep & Hr & Hs).
  rewrite Hs, Hr. apply set_of_In.
Qed.

Lemma main_today (f : file) (today : dt.date) (api : list string -> http)
    (r : Z * option (list row)) :
  main f today api = Ok r ->
  dt.valid (dt.mk (dt.year today) (dt.month today) 1)
  /\ ordinal dt.min < ordinal today.
Proof.
  unfold main. destruct (read_existing f) as [[rows seen] latest].
  destruct (dt.new _ _ _) as [first_of_this|] eqn:N; [|discriminate]. cbn [bind].
  destruct (add_months _ _) as [end_|] eqn:A; [|discriminate]. intros _.
  apply dt_new_ok in N as (-> & Hy & Hm & Hd).
  apply add_months_ok in A as (_ & Hm' & Hy' & Ho).
  split; [unfold dt.valid, dt.MINYEAR, dt.MAXYEAR; cbn [dt.year dt.month dt.day]; lia|].
  change (ordinal dt.min) with 12.
  unfold ordinal in *. cbn [dt.year dt.month] in *. lia.
Qed.

Lemma merge_and_persist_zero (rows : list row) (seen : set key) (new_rows : list row)
    (z : Z) (w : option (list row)) :
  merge_and_persist rows seen new_rows = Ok (z, w) -> z = 0.
Proof.
  unfold merge_and_persist. destruct (merge rows seen new_rows) as [[rows' seen'] added].
  destruct (added =? 0); [now intros [= <- _]|].
  destruct (sort_rows rows'); [now intros [= <- _]|discriminate].
Qed.

(** X20: a run that writes has asked for the months after the
    latest complete month of the file, and writes a permutation of
    the loaded rows followed by the fetched rows whose pair no loaded
    row has, at least one; the pair of every fetched row is in the
    written list, and the value returned is 0. *)
Theorem main_written_content (f : file) (today : dt.date) (api : list string -> http)
    (z : Z) (written : list row) :
  main f today api = Ok (z, Some written) ->
  z = 0
  /\ exists latest new_rows fresh,
       loaded_latest f = Some latest
       /\ fetch_scb api (months_to_fetch latest today) = Ok new_rows
       /\ Permutation written (loaded_rows f ++ fresh)
       /\ fresh <> []
       /\ (forall r, In r fresh ->
             In r new_rows /\ ~ In (key_of r) (map key_of (loaded_rows f)))
       /\ (forall r, In r new_rows -> In (key_of r) (map key_of written)).
Proof.
  intros H. destruct (main_today _ _ _ _ H) as (Hv & Hmin).
  change (main f today api)
    with (main f (dt.mk (dt.year today) (dt.month today) 1) api) in H.
  rewrite main_eq in H by assumption.
  change (months_to_fetch ?l (dt.mk (dt.year today) (dt.month today) 1))
    with (months_to_fetch l today) in H.
  destruct (loaded_latest f) as [latest|]; [|discriminate].
  destruct (_ <=? _); [discriminate|].
  destruct (fetch_scb api (months_to_fetch latest today)) as [new_rows|] eqn:F;
    [|discriminate].
  cbn [bind] in H. split; [eapply merge_and_persist_zero, H|].
  apply merge_and_persist_written in H as (fresh & seen' & M & Hne & Hfresh & _ & S).
  apply sort_rows_spec in S as [_ P].
  exists latest, new_rows, fresh. repeat split; try assumption.
  - now apply Hfresh.
  - intros Hin. apply Hfresh in H as [_ Hn]. apply Hn, loaded_seen_keys, Hin.
  - intros r Hr. unfold merge in M.
    apply merge_from in M as (fresh' & E & _ & _ & _ & Hseen & Hall).
    apply app_inv_head in E. subst fresh'.
    apply Hall, Hseen in Hr.
    eapply Permutation_in; [apply Permutation_map, Permutation_sym, P|].
    rewrite map_app. apply in_or_app.
    destruct Hr as [Hr|Hr]; [left; now apply loaded_seen_keys|now right].
Qed.

Lemma main_written_content_witness :
  0 = 0
  /\ exists latest new_rows fresh,
       loaded_latest file_2025M01 = Some latest
       /\ fetch_scb api_two_values (months_to_fetch latest day_2025_03_15) = Ok new_rows
       /\ Permutation
            [mkRow Jonkoping "2025M01" 145000; mkRow Norrkoping "2025M01" 144000;
             mkRow Jonkoping "2025M02" 145100; mkRow Norrkoping "2025M02" 144100]
            (loaded_rows file_2025M01 ++ fresh)
       /\ fresh <> []
       /\ (forall r, In r fresh ->
             In r new_rows /\ ~ In (key_of r) (map key_of (loaded_rows file_2025M01)))
       /\ (forall r, In r new_rows ->
             In (key_of r)
               (map key_of
                  [mkRow Jonkoping "2025M01" 145000; mkRow Norrkoping "2025M01" 144000;
                   mkRow Jonkoping "2025M02" 145100; mkRow Norrkoping "2025M02" 144100])).
Proof.
  apply (main_written_content file_2025M01 day_2025_03_15 api_two_values).
  reflexivity.
Defined.

(** ** The run after a complete answer *)

Lemma fetch_scb_months (api : list string -> http) (months : list string) (rows : list row) :
  fetch_scb api months = Ok rows -> forall r, In r rows -> In (month r) months.
Proof.
  intros H. unfold fetch_scb in H. destruct months as [|mo months]; [now injection H as <-|].
  set (ms := mo :: months) in *.
  destruct (api ms) as [status_code content|]; [|discriminate].
  destruct ((400 <=? status_code) && (status_code <? 600)).
  - destruct (status_code =? 400); [now injection H as <-|discriminate].
  - pose proof (parse_table_cases content ms) as P.
    destruct (data_block content) as [block|]; [|congruence].
    destruct P as (numbers & _ & _ & P). rewrite P in H. injection H as <-.
    intros r Hr. apply in_map_iff in Hr as ([[rc mo'] v] & <- & Hr).
    apply in_combine_l in Hr. unfold layout in Hr.
    apply in_flat_map in Hr as (rc' & _ & Hr).
    apply in_map_iff in Hr as (mo'' & [= _ ->] & Hr). exact Hr.
Qed.

Lemma month_of_ordinal_four_digits (c : Z) :
  12000 <= c <= 12 * 9999 + 11 -> four_digit_year (month_of_ordinal c).
Proof.
  intros H. unfold four_digit_year, month_of_ordinal. cbn [dt.year dt.month dt.day].
  pose proof (Z.div_mod c 12 ltac:(lia)).
  pose proof (Z.mod_pos_bound c 12 ltac:(lia)). lia.
Qed.

(** X21: when a run writes and the answer it got holds, for the
    month before the one [today] is in, a row of each tracked region
    and of no other region, that month is the latest complete month
    of the written file, and a further run in the same month returns
    0 without asking the server and without writing, whatever the
    server would answer.  The latest complete month of the file
    before the run is taken to have a four-digit year. *)
Theorem run_then_up_to_date (rows0 : list row) (today latest : dt.date)
    (api : list string -> http) (new_rows : list row) (z : Z) (written : list row) :
  main (Some rows0) today api = Ok (z, Some written) ->
  loaded_latest (Some rows0) = Some latest -> 1000 <= dt.year latest ->
  fetch_scb api (months_to_fetch latest today) = Ok new_rows ->
  (forall x, set_In x tracked_regions
             <-> exists r, In r new_rows
                           /\ month r = month_to_str (month_of_ordinal (ordinal today - 1))
                           /\ region r = x) ->
  loaded_latest (Some written) = Some (month_of_ordinal (ordinal today - 1))
  /\ forall api', main (Some written) today api' = Ok (0, None).
Proof.
  intros H Hl Hy F Hreg. destruct (main_today _ _ _ _ H) as (Hv & Hmin).
  set (end_ := month_of_ordinal (ordinal today - 1)) in *.
  assert (Hot : ordinal today <= 12 * 9999 + 11).
  { destruct Hv as (Hty & Htm & _). unfold dt.MAXYEAR in Hty.
    cbn [dt.year dt.month] in Hty, Htm. unfold ordinal. lia. }
  destruct (loaded_latest_first rows0 latest Hl) as (Hly & Hlm & Hld).
  assert (Hol : 12000 <= ordinal latest) by (unfold ordinal; lia).
  assert (H4l : four_digit_year latest) by (repeat split; lia).
  pose proof H as H'.
  change (main (Some rows0) today api)
    with (main (Some rows0) (dt.mk (dt.year today) (dt.month today) 1) api) in H'.
  rewrite main_eq, Hl in H' by assumption.
  change (months_to_fetch latest (dt.mk (dt.year today) (dt.month today) 1))
    with (months_to_fetch latest today) in H'.
  change (ordinal (dt.mk (dt.year today) (dt.month today) 1)) with (ordinal today) in H'.
  destruct (Z.leb_spec (ordinal today - 1) (ordinal latest)) as [L|L]; [discriminate|].
  rewrite F in H'. cbn [bind] in H'.
  apply merge_and_persist_written in H' as (fresh & seen' & M & Hne & Hfresh & _ & S).
  apply sort_rows_spec in S as [_ P].
  unfold merge in M. apply merge_from in M as (fresh' & E & _ & _ & _ & Hseen & Hall).
  apply app_inv_head in E. subst fresh'.
  assert (H4e : four_digit_year end_) by (apply month_of_ordinal_four_digits; lia).
  assert (Hle : dt.leb end_ latest = false).
  { unfold end_. rewrite dt_leb_month_of_ordinal by lia.
    now destruct (Z.leb_spec (ordinal today - 1) (ordinal latest)) as [L'|L']; [lia|]. }
  assert (W : forall r, In r written <-> In r (loaded_rows (Some rows0)) \/ In r fresh).
  { intros r. rewrite <- in_app_iff. split; apply Permutation_in; [exact P|].
    now apply Permutation_sym. }
  assert (Hload : forall r, In r (loaded_rows (Some rows0))
                            <-> In r rows0 /\ String.leb (month r) (month_to_str latest) = true).
  { intros r. rewrite loaded_rows_eq, Hl. apply filter_In. }
  assert (K : forall r, In r new_rows -> exists r', In r' written /\ key_of r' = key_of r).
  { intros r Hr. apply Hall, Hseen in Hr as [Hr|Hr].
    - apply loaded_seen_keys, in_map_iff in Hr as (r' & E & Hr').
      exists r'. split; [apply W; now left|exact E].
    - apply in_map_iff in Hr as (r' & E & Hr').
      exists r'. split; [apply W; now right|exact E]. }
  assert (G : loaded_latest (Some written) = Some end_).
  { rewrite loaded_latest_eq.
    apply (latest_complete_unique written tracked_regions);
      [apply find_latest_complete_month_spec|].
    split.
    - exists (month_to_str end_). split; [split|now apply parse_month_written].
      + assert (T : set_In Norrkoping tracked_regions) by (vm_compute; auto).
        apply Hreg in T as (r & Hr & Hm & _).
        apply K in Hr as (r' & Hr' & E). injection E as _ E.
        apply in_map_iff. exists r'. split; [congruence|exact Hr'].
      + intros x. rewrite Hreg. split.
        * intros (r & Hr & Hm & Hx). apply K in Hr as (r' & Hr' & E).
          injection E as E1 E2. exists r'. repeat split; congruence.
        * intros (r & Hr & Hm & Hx). apply W in Hr as [Hr|Hr].
          -- apply Hload in Hr as [_ Hr]. rewrite Hm in Hr.
             rewrite (month_to_str_leb end_ latest H4e H4l) in Hr. congruence.
          -- exists r. repeat split; try assumption. now apply Hfresh.
    - intros tok d' [Cin Creg] Hp.
      destruct (in_dec string_dec tok (months_to_fetch latest today)) as [I|I].
      + unfold months_to_fetch in I. apply in_map_iff in I as (k & <- & Hk).
        apply in_seq in Hk.
        rewrite parse_month_written in Hp by (apply month_of_ordinal_four_digits; lia).
        injection Hp as <-. unfold end_.
        rewrite dt_leb_month_of_ordinal by (pose proof (month_of_ordinal_first (ordinal today - 1)); lia).
        rewrite ordinal_month_of_ordinal. apply Z.leb_le. lia.
      + assert (Hnf : forall r, In r fresh -> month r <> tok).
        { intros r Hr <-. apply I. eapply fetch_scb_months; [exact F|]. now apply Hfresh. }
        apply in_map_iff in Cin as (r0 & Hm0 & Hr0).
        apply W in Hr0 as [Hr0|Hr0]; [|now destruct (Hnf r0 Hr0)].
        apply Hload in Hr0 as [Hr0 Hk]. rewrite Hm0 in Hk.
        assert (C0 : complete_month rows0 tracked_regions tok).
        { split; [apply in_map_iff; eauto|].
          intros x. rewrite Creg. split; intros (r & Hr & Hm & Hx); exists r.
          - apply W in Hr as [Hr|Hr]; [|now destruct (Hnf r Hr)].
            apply Hload in Hr as [Hr _]. auto.
          - repeat split; try assumption. apply W. left. apply Hload.
            split; [exact Hr|now rewrite Hm]. }
        pose proof (find_latest_complete_month_spec rows0 tracked_regions) as L0.
        rewrite <- loaded_latest_eq, Hl in L0. destruct L0 as [_ L0].
        eapply dt_leb_trans; [eapply L0; eassumption|].
        apply dt_ltb_false_leb. unfold dt.leb in Hle.
        now apply orb_false_elim in Hle as [Hle _]. }
  split; [exact G|]. intros api'.
  change (main (Some written) today api')
    with (main (Some written) (dt.mk (dt.year today) (dt.month today) 1) api').
  rewrite main_eq, G by assumption.
  change (ordinal (dt.mk (dt.year today) (dt.month today) 1)) with (ordinal today).
  unfold end_. rewrite ordinal_month_of_ordinal.
  now destruct (Z.leb_spec (ordinal today - 1) (ordinal today - 1)) as [X|X]; [|lia].
Qed.

Lemma run_then_up_to_date_witness :
  loaded_latest
    (Some [mkRow Jonkoping "2025M01" 145000; mkRow Norrkoping "2025M01" 144000;
           mkRow Jonkoping "2025M02" 145100; mkRow Norrkoping "2025M02" 144100])
  = Some (month_of_ordinal (ordinal day_2025_03_15 - 1))
  /\ forall api',
       main
         (Some [mkRow Jonkoping "2025M01" 145000; mkRow Norrkoping "2025M01" 144000;
                mkRow Jonkoping "2025M02" 145100; mkRow Norrkoping "2025M02" 144100])
         day_2025_03_15 api'
       = Ok (0, None).
Proof.
  apply (run_then_up_to_date
           [mkRow Jonkoping "2025M01" 145000; mkRow Norrkoping "2025M01" 144000]
           day_2025_03_15 (dt.mk 2025 1 1) api_two_values
           [mkRow Norrkoping "2025M02" 144100; mkRow Jonkoping "2025M02" 145100] 0).
  - reflexivity.
  - vm_compute. reflexivity.
  - vm_compute. discriminate.
  - reflexivity.
  - intros x. split.
    + intros Hx. vm_compute in Hx. destruct Hx as [<-|[<-|[]]].
      * exists (mkRow Norrkoping "2025M02" 144100).
        split; [now left|split; reflexivity].
      * exists (mkRow Jonkoping "2025M02" 145100).
        split; [right; now left|split; reflexivity].
    + intros (r & [<-|[<-|[]]] & _ & <-); vm_compute; auto.
Defined.

(** ** Failed requests and the rows kept on load *)

(** X22: when the request of [main] fails, by an exception of the
    transport, by a status from 401 to 599 or by a response without
    [DATA=] block, [main] raises the exception of [fetch_scb] and the
    file is left as it was. *)
Theorem main_fetch_raises (f : file) (today latest : dt.date) (api : list string -> http)
    (e : exn) :
  dt.valid today -> ordinal dt.min < ordinal today ->
  loaded_latest f = Some latest -> ordinal latest < ordinal today - 1 ->
  fetch_scb api (months_to_fetch latest today) = Raise e ->
  main f today api = Raise e /\ run f today api = f.
Proof.
  intros Hv Hmin Hl Hlt F.
  assert (M : main f today api = Raise e).
  { rewrite main_eq, Hl by assumption.
    destruct (Z.leb_spec (ordinal today - 1) (ordinal latest)) as [L|L]; [lia|].
    now rewrite F. }
  split; [exact M|]. unfold run. now rewrite M.
Qed.

Lemma main_fetch_raises_witness :
  main file_2025M01 day_2025_03_15 (fun _ => Response 503 "busy") = Raise (HTTPError 503)
  /\ run file_2025M01 day_2025_03_15 (fun _ => Response 503 "busy") = file_2025M01.
Proof.
  apply (main_fetch_raises file_2025M01 day_2025_03_15 (dt.mk 2025 1 1)
           (fun _ => Response 503 "busy") (HTTPError 503)).
  - repeat split; vm_compute; discriminate.
  - reflexivity.
  - vm_compute. reflexivity.
  - reflexivity.
  - reflexivity.
Defined.


